(** * Crossword generation as a constraint-satisfaction problem

    A shallow embedding of [CrosswordCreator] (generate.py): node
    consistency, arc revision, AC-3, the consistency check, the MRV/degree
    and LCV heuristics and the backtracking search, together with the
    properties of the solving pipeline.

    Conventions of the embedding.
    - A Python [set] is a duplicate-free [list] that lists the elements in
      the iteration order of the set; that order is part of the input.  A
      removal ([-=]) is written with [list_difference], which leaves the
      remaining words in their relative order, whereas CPython may rebuild
      the table and list them in another order.  The statements below do
      not rely on it: they speak of the words a domain holds, or of one
      operation on a store given with its order.
    - The [domains] dictionary is a finite map; the only loop over it
      (node consistency) treats every entry independently.
    - An assignment is a Python [dict] whose iteration order (insertion
      order) is observable by the loops of [consistent]; it is an association
      list with pairwise distinct keys.
    - Python exceptions are results: subscripting a dictionary at a missing
      key is [KeyError], a string past its end is [IndexError], and [min]
      of an empty sequence is [ValueError].  Loops and recursion that need
      a bound take fuel, and running out of it is the separate result
      [Diverge]. *)

From Stdlib Require Import ZArith Ascii String.
From stdpp Require Import base decidable countable list strings gmap fin_maps sorting.

(** ** Results of Python computations *)

Inductive exn := KeyError | IndexError | ValueError.

Inductive result (A : Type) :=
  | Ok (a : A)
  | Raise (e : exn)
  | Diverge.
Arguments Ok {A} a.
Arguments Raise {A} e.
Arguments Diverge {A}.

#[global] Instance result_ret : MRet result := λ A a, Ok a.
#[global] Instance result_bind : MBind result := λ A B f m,
  match m with
  | Ok a => f a
  | Raise e => Raise e
  | Diverge => Diverge
  end.

#[global] Instance result_fmap : FMap result := λ A B f m,
  match m with
  | Ok a => Ok (f a)
  | Raise e => Raise e
  | Diverge => Diverge
  end.

(** [o] or the exception [e] when [o] is absent. *)
Definition or_raise {A} (e : exn) (o : option A) : result A :=
  match o with
  | Some a => Ok a
  | None => Raise e
  end.

(** [w[k]] on a string. *)
Definition getitem (w : string) (k : nat) : result ascii :=
  or_raise IndexError (String.get k w).

(** ** The puzzle model (crossword.py) *)

Inductive Direction := ACROSS | DOWN.

(** Modelled from the spec: the class [Variable] of crossword.py, which is
    not part of the sources at hand.  A slot has a start row, a start
    column, a direction and a length; two slots are equal iff the four
    attributes are. *)
Record Var := mkVar {
  var_i : nat;
  var_j : nat;
  var_direction : Direction;
  var_length : nat
}.

#[global] Instance Direction_eq_dec : EqDecision Direction.
Proof. solve_decision. Defined.

#[global] Instance Var_eq_dec : EqDecision Var.
Proof. solve_decision. Defined.

#[global] Instance Direction_countable : Countable Direction.
Proof.
  refine (inj_countable' (λ d, match d with ACROSS => false | DOWN => true end)
                         (λ b : bool, if b then DOWN else ACROSS) _).
  by intros [].
Defined.

#[global] Instance Var_countable : Countable Var.
Proof.
  refine (inj_countable'
            (λ v, (var_i v, var_j v, var_direction v, var_length v))
            (λ t, match t with (a, b, c, n) => mkVar a b c n end) _).
  by intros [].
Defined.

(** Modelled from the spec: the class [Crossword] of crossword.py.  The
    slot set and the dictionary are sets (lists in iteration order); the
    overlap table is a dictionary from ordered pairs of slots to either
    [None] or a pair of indices. *)
Record Crossword := mkCrossword {
  variables : list Var;
  words : list string;
  overlaps : gmap (Var * Var) (option (nat * nat))
}.

Abbreviation Domains := (gmap Var (list string)).
Abbreviation Arc := (Var * Var)%type.
Abbreviation Assignment := (list (Var * string)).

(** Dictionary operations on an assignment. *)
Fixpoint assignment_get (a : Assignment) (v : Var) : option string :=
  match a with
  | [] => None
  | (k, w) :: a' => if decide (k = v) then Some w else assignment_get a' v
  end.

(** [a[v] = w]: an existing key keeps its place, a new one goes last. *)
Fixpoint assignment_set (a : Assignment) (v : Var) (w : string) : Assignment :=
  match a with
  | [] => [(v, w)]
  | (k, w') :: a' =>
      if decide (k = v) then (k, w) :: a' else (k, w') :: assignment_set a' v w
  end.

Section creator.
Context (cw : Crossword).

(** [self.crossword.overlaps[x, y]] *)
Definition getoverlap (x y : Var) : result (option (nat * nat)) :=
  or_raise KeyError (overlaps cw !! (x, y)).

(** [self.domains[v]] *)
Definition getdomain (d : Domains) (v : Var) : result (list string) :=
  or_raise KeyError (d !! v).

(** Modelled from the spec: [Crossword.neighbors] of crossword.py.  The
    neighbours of [x] are all other slots [y] with overlap(x,y) not
    none. *)
Definition neighbors (x : Var) : list Var :=
  filter (λ y, y ≠ x ∧ is_Some (mjoin (overlaps cw !! (x, y)))) (variables cw).

(** [__init__]: every slot starts with a copy of the whole dictionary. *)
Definition init_domains : Domains :=
  list_to_map ((λ var, (var, words cw)) <$> variables cw).

(** *** Node consistency *)

Definition enforce_node_consistency (d : Domains) : Domains :=
  map_imap (λ var dom,
    let to_remove := filter (λ word, String.length word ≠ var_length var) dom in
    Some (list_difference dom to_remove)) d.

(** *** Arc revision *)

(** The inner loop of [revise]: is there a [yval] with
    [xval[i] == yval[j]]?  Both subscripts are evaluated at every
    iteration, and the loop stops at the first match. *)
Fixpoint supported_loop (xval : string) (i j : nat) (ys : list string)
    : result bool :=
  match ys with
  | [] => Ok false
  | yval :: ys' =>
      a ← getitem xval i;
      b ← getitem yval j;
      if decide (a = b) then Ok true else supported_loop xval i j ys'
  end.

(** The outer loop of [revise]: the words to remove. *)
Fixpoint revise_loop (d : Domains) (y : Var) (i j : nat) (xs : list string)
    : result (list string) :=
  match xs with
  | [] => Ok []
  | xval :: xs' =>
      dy ← getdomain d y;
      supported ← supported_loop xval i j dy;
      to_remove ← revise_loop d y i j xs';
      Ok (if supported : bool then to_remove else xval :: to_remove)
  end.

Definition revise (x y : Var) (d : Domains) : result (bool * Domains) :=
  overlap ← getoverlap x y;
  match overlap with
  | None => Ok (false, d)
  | Some (i, j) =>
      dx ← getdomain d x;
      to_remove ← revise_loop d y i j dx;
      match to_remove with
      | [] => Ok (false, d)
      | _ :: _ => Ok (true, <[x := list_difference dx to_remove]> d)
      end
  end.

(** *** AC-3 *)

(** The queue of [ac3] when no arcs are given: every [(x, y)] with [y]
    a neighbour of [x]. *)
Definition all_arcs : list Arc :=
  x ← variables cw; y ← neighbors x; [(x, y)].

(** Total number of candidate words in the store. *)
Definition domains_size (d : Domains) : nat :=
  sum_list_with (λ kv, length kv.2) (map_to_list d).

(** The [while queue] loop.  [queue.pop(0)] takes the head, [append]
    adds at the end. *)
Fixpoint ac3_loop (fuel : nat) (queue : list Arc) (d : Domains)
    : result (bool * Domains) :=
  match fuel with
  | 0 => Diverge
  | S fuel' =>
      match queue with
      | [] => Ok (true, d)
      | (x, y) :: queue' =>
          '(revised, d') ← revise x y d;
          if revised : bool then
            dx ← getdomain d' x;
            if decide (length dx = 0) then Ok (false, d')
            else
              ac3_loop fuel'
                (queue' ++ ((λ z, (z, x)) <$> list_difference (neighbors x) [y]))
                d'
          else ac3_loop fuel' queue' d'
      end
  end.

(** Enough iterations for the loop to finish (see [ac3_loop_fuel]). *)
Definition ac3_fuel (queue : list Arc) (d : Domains) : nat :=
  S (length queue + domains_size d * S (length (variables cw))).

Definition ac3 (d : Domains) (arcs : option (list Arc))
    : result (bool * Domains) :=
  let queue :=
    match arcs with
    | Some arcs => arcs
    | None => all_arcs
    end in
  ac3_loop (ac3_fuel queue d) queue d.

(** *** Completeness and consistency of an assignment *)

Definition assignment_complete (a : Assignment) : bool :=
  bool_decide (length a = length (variables cw)).

(** The loop over the neighbours of [var] in the third part of
    [consistent]; [Ok false] is the early [return False]. *)
Fixpoint consistent_neighbors (a : Assignment) (var : Var) (word : string)
    (nbs : list Var) : result bool :=
  match nbs with
  | [] => Ok true
  | neighbor :: nbs' =>
      match assignment_get a neighbor with
      | None => consistent_neighbors a var word nbs'
      | Some nword =>
          overlap ← getoverlap var neighbor;
          match overlap with
          | None => consistent_neighbors a var word nbs'
          | Some (i, j) =>
              c1 ← getitem word i;
              c2 ← getitem nword j;
              if decide (c1 ≠ c2) then Ok false
              else consistent_neighbors a var word nbs'
          end
      end
  end.

Fixpoint consistent_overlaps (a items : Assignment) : result bool :=
  match items with
  | [] => Ok true
  | (var, word) :: items' =>
      ok ← consistent_neighbors a var word (neighbors var);
      if ok : bool then consistent_overlaps a items' else Ok false
  end.

Definition consistent (a : Assignment) : result bool :=
  if negb (forallb (λ '(var, word),
               bool_decide (String.length word = var_length var)) a)
  then Ok false
  else
    let values := a.*2 in
    if decide (length values ≠ length (remove_dups values)) then Ok false
    else consistent_overlaps a a.

(** *** Value ordering (least constraining value) *)

(** The loop over [self.domains[nb]] in [conflicts_count]. *)
Fixpoint conflicts_words (val : string) (i j : nat) (nb_vals : list string)
    (count : nat) : result nat :=
  match nb_vals with
  | [] => Ok count
  | nb_val :: nb_vals' =>
      a ← getitem val i;
      b ← getitem nb_val j;
      conflicts_words val i j nb_vals' (if decide (a ≠ b) then S count else count)
  end.

(** The loop over the neighbours of [var] in [conflicts_count]. *)
Fixpoint conflicts_neighbors (d : Domains) (a : Assignment) (var : Var)
    (val : string) (nbs : list Var) (count : nat) : result nat :=
  match nbs with
  | [] => Ok count
  | nb :: nbs' =>
      match assignment_get a nb with
      | Some _ => conflicts_neighbors d a var val nbs' count
      | None =>
          overlap ← getoverlap var nb;
          match overlap with
          | None => conflicts_neighbors d a var val nbs' count
          | Some (i, j) =>
              dnb ← getdomain d nb;
              count' ← conflicts_words val i j dnb count;
              conflicts_neighbors d a var val nbs' count'
          end
      end
  end.

Definition conflicts_count (d : Domains) (a : Assignment) (var : Var)
    (val : string) : result nat :=
  conflicts_neighbors d a var val (neighbors var) 0.

(** [sorted(l, key=...)] is a stable sort; on a list of keyed elements
    it is insertion from the right, an element going before the first
    one whose key is not smaller. *)
Fixpoint sorted_insert {A} (k : nat) (x : A) (l : list (nat * A))
    : list (nat * A) :=
  match l with
  | [] => [(k, x)]
  | (k', x') :: l' =>
      if decide (k ≤ k') then (k, x) :: l else (k', x') :: sorted_insert k x l'
  end.

Definition sorted {A} (l : list (nat * A)) : list A :=
  (foldr (λ kx acc, sorted_insert kx.1 kx.2 acc) [] l).*2.

Definition order_domain_values (d : Domains) (var : Var) (a : Assignment)
    : result (list string) :=
  dvar ← getdomain d var;
  keys ← mapM (conflicts_count d a var) dvar;
  Ok (sorted (zip keys dvar)).

(** *** Variable selection (MRV, then degree) *)

(** The key [(len(self.domains[var]), -len(neighbors(var)))]. *)
Definition select_key (d : Domains) (var : Var) : result (nat * Z) :=
  dvar ← getdomain d var;
  Ok (length dvar, (- Z.of_nat (length (neighbors var)))%Z).

(** Python's order on pairs. *)
Definition key_lt (k1 k2 : nat * Z) : bool :=
  bool_decide (k1.1 < k2.1)
  || (bool_decide (k1.1 = k2.1) && bool_decide (k1.2 < k2.2)%Z).

(** [min]: the first element with the smallest key. *)
Fixpoint min_loop {A} (best : A) (kbest : nat * Z) (l : list (A * (nat * Z)))
    : A :=
  match l with
  | [] => best
  | (x, k) :: l' =>
      if key_lt k kbest then min_loop x k l' else min_loop best kbest l'
  end.

Definition min_by_key {A} (l : list (A * (nat * Z))) : result A :=
  match l with
  | [] => Raise ValueError
  | (x, k) :: l' => Ok (min_loop x k l')
  end.

Definition unassigned_variables (a : Assignment) : list Var :=
  filter (λ v, assignment_get a v = None) (variables cw).

Definition select_unassigned_variable (d : Domains) (a : Assignment)
    : result Var :=
  let unassigned := unassigned_variables a in
  keys ← mapM (select_key d) unassigned;
  min_by_key (zip unassigned keys).

(** *** Backtracking search *)

(** The [for value in ...] loop of [backtrack]; [rec] is the recursive
    call. *)
Fixpoint backtrack_values (rec : Assignment → result (option Assignment))
    (a : Assignment) (var : Var) (values : list string)
    : result (option Assignment) :=
  match values with
  | [] => Ok None
  | value :: values' =>
      let new_assignment := assignment_set a var value in
      ok ← consistent new_assignment;
      if ok : bool then
        res ← rec new_assignment;
        match res with
        | Some r => Ok (Some r)
        | None => backtrack_values rec a var values'
        end
      else backtrack_values rec a var values'
  end.

Fixpoint backtrack (fuel : nat) (d : Domains) (a : Assignment)
    : result (option Assignment) :=
  match fuel with
  | 0 => Diverge
  | S fuel' =>
      if assignment_complete a then Ok (Some a)
      else
        var ← select_unassigned_variable d a;
        values ← order_domain_values d var a;
        backtrack_values (backtrack fuel' d) a var values
  end.

(** One level of recursion per unassigned slot, and one more for the
    complete assignment (see [backtrack_fuel_enough]). *)
Definition backtrack_fuel (a : Assignment) : nat :=
  S (length (unassigned_variables a)).

(** *** The pipeline *)

Inductive call := Call_enforce_node_consistency | Call_ac3 | Call_backtrack.

(** [solve], with the methods it has invoked, in order, and the store it
    leaves behind.  The value of [self.ac3()] is dropped. *)
Definition solve_run (d : Domains)
    : list call * result (option Assignment * Domains) :=
  let d1 := enforce_node_consistency d in
  match ac3 d1 None with
  | Ok (_, d2) =>
      ([Call_enforce_node_consistency; Call_ac3; Call_backtrack],
       res ← backtrack (backtrack_fuel []) d2 []; Ok (res, d2))
  | Raise e => ([Call_enforce_node_consistency; Call_ac3], Raise e)
  | Diverge => ([Call_enforce_node_consistency; Call_ac3], Diverge)
  end.

Definition solve (d : Domains) : result (option Assignment) :=
  fst <$> (solve_run d).2.

(** [CrosswordCreator(crossword).solve()], as in [main]. *)
Definition generate : result (option Assignment) :=
  solve init_domains.

End creator.

(** ** The letter grid *)

Abbreviation Grid := (list (list (option ascii))).

(** The cell of the [k]-th letter of a slot: [k] rows further for a slot
    that goes down, [k] columns further for one that goes across. *)
Definition cell (variable : Var) (k : nat) : nat * nat :=
  (var_i variable + (if decide (var_direction variable = DOWN) then k else 0),
   var_j variable + (if decide (var_direction variable = ACROSS) then k else 0)).

(** [letters[i][j] = c]: both subscripts are checked. *)
Definition grid_set (letters : Grid) (i j : nat) (c : ascii) : result Grid :=
  row ← or_raise IndexError (letters !! i);
  if decide (j < length row) then Ok (<[i := <[j := Some c]> row]> letters)
  else Raise IndexError.

(** The loop [for k in range(len(word))] of [letter_grid]. *)
Fixpoint letter_grid_word (variable : Var) (word : string) (ks : list nat)
    (letters : Grid) : result Grid :=
  match ks with
  | [] => Ok letters
  | k :: ks' =>
      c ← getitem word k;
      letters' ← grid_set letters (cell variable k).1 (cell variable k).2 c;
      letter_grid_word variable word ks' letters'
  end.

(** The loop over [assignment.items()] of [letter_grid]. *)
Fixpoint letter_grid_items (items : Assignment) (letters : Grid) : result Grid :=
  match items with
  | [] => Ok letters
  | (variable, word) :: items' =>
      letters' ← letter_grid_word variable word (seq 0 (String.length word)) letters;
      letter_grid_items items' letters'
  end.

(** [letter_grid]; the height and the width of the grid are attributes of
    the crossword. *)
Definition letter_grid (height width : nat) (assignment : Assignment)
    : result Grid :=
  letter_grid_items assignment (replicate height (replicate width None)).

(** * Specification *)

(** ** Letters and supports *)

(** The letter of [wx] at index [i] is the letter of [wy] at index [j]. *)
Definition letters_agree (i j : nat) (wx wy : string) : Prop :=
  ∃ c, String.get i wx = Some c ∧ String.get j wy = Some c.

#[global] Instance letters_agree_dec i j wx wy : Decision (letters_agree i j wx wy).
Proof.
  refine (cast_if (decide (is_Some (String.get i wx)
                           ∧ String.get i wx = String.get j wy)));
    unfold letters_agree.
  - destruct a as [[c Hc] Heq]. exists c. by rewrite <-Heq.
  - intros (c & Hx & Hy). apply n. rewrite Hx, Hy. eauto.
Defined.

(** [xval] has a support in [dy]: some word of [dy] carries at index [j]
    the letter that [xval] carries at index [i]. *)
Definition supported (i j : nat) (dy : list string) (xval : string) : Prop :=
  ∃ yval, yval ∈ dy ∧ letters_agree i j xval yval.

#[global] Instance supported_dec i j dy xval : Decision (supported i j dy xval).
Proof.
  refine (cast_if (decide (Exists (letters_agree i j xval) dy)));
    unfold supported; by rewrite <-Exists_exists.
Defined.

(** ** Well-formed puzzles and stores *)

(** The indices of an overlap lie within the two slots. *)
Definition overlaps_in_range (cw : Crossword) : Prop :=
  ∀ x y i j, overlaps cw !! (x, y) = Some (Some (i, j)) →
    i < var_length x ∧ j < var_length y.

(** The overlap table describes one shared cell from both sides: on the
    slots of the puzzle, an entry [(i, j)] for [(x, y)] comes with the entry
    [(j, i)] for [(y, x)]. *)
Definition overlaps_symmetric (cw : Crossword) : Prop :=
  ∀ x y i j, x ∈ variables cw → y ∈ variables cw →
    overlaps cw !! (x, y) = Some (Some (i, j)) →
    overlaps cw !! (y, x) = Some (Some (j, i)).

(** The slot set lists every slot once, the overlap indices lie within
    the slots and the overlap table is symmetric. *)
Definition well_formed (cw : Crossword) : Prop :=
  NoDup (variables cw) ∧ overlaps_in_range cw ∧ overlaps_symmetric cw.

(** The store has a domain for every slot, as [__init__] leaves it. *)
Definition covers (cw : Crossword) (d : Domains) : Prop :=
  ∀ v, v ∈ variables cw → is_Some (d !! v).

(** Every candidate word has the length of its slot. *)
Definition node_consistent (d : Domains) : Prop :=
  ∀ v dv w, d !! v = Some dv → w ∈ dv → String.length w = var_length v.

(** The operations that follow node consistency in the pipeline, as steps
    on the store: a call of [revise], of [ac3] or of [backtrack] that
    returns.  [backtrack] reads the store and never writes it. *)
Inductive pipeline_step (cw : Crossword) : Domains → Domains → Prop :=
  | step_revise x y d revised d' :
      revise cw x y d = Ok (revised, d') → pipeline_step cw d d'
  | step_ac3 arcs d ok d' :
      ac3 cw d arcs = Ok (ok, d') → pipeline_step cw d d'
  | step_backtrack fuel a d res :
      backtrack cw fuel d a = Ok res → pipeline_step cw d d.

(** ** Arc consistency *)

(** An arc of the constraint graph: a slot of the puzzle and one of its
    neighbours. *)
Definition is_arc (cw : Crossword) (a : Arc) : Prop :=
  a.1 ∈ variables cw ∧ a.2 ∈ neighbors cw a.1.

(** Every word of the domain of [x] has a support in the domain of [y]. *)
Definition arc_consistent (cw : Crossword) (d : Domains) (x y : Var) : Prop :=
  ∀ i j dx wx, overlaps cw !! (x, y) = Some (Some (i, j)) →
    d !! x = Some dx → wx ∈ dx → supported i j (d !!! y) wx.

(** The invariant of the loop: the queue holds arcs of the constraint
    graph, and an arc that is not waiting in the queue is consistent. *)
Definition ac3_invariant (cw : Crossword) (queue : list Arc) (d : Domains) : Prop :=
  (∀ a, a ∈ queue → is_arc cw a)
  ∧ (∀ x y, is_arc cw (x, y) → (x, y) ∉ queue → arc_consistent cw d x y).

(** ** Assignments *)

(** (a) some assigned word has not the length of its slot. *)
Definition length_mismatch (a : Assignment) : Prop :=
  ∃ v w, (v, w) ∈ a ∧ String.length w ≠ var_length v.

(** (b) two assigned slots carry the same word. *)
Definition duplicate_word (a : Assignment) : Prop :=
  ∃ x y w, x ≠ y ∧ (x, w) ∈ a ∧ (y, w) ∈ a.

(** (c) two assigned neighbours disagree on the letter of their overlap. *)
Definition overlap_conflict (cw : Crossword) (a : Assignment) : Prop :=
  ∃ x y wx wy i j,
    (x, wx) ∈ a ∧ (y, wy) ∈ a ∧ y ∈ neighbors cw x
    ∧ overlaps cw !! (x, y) = Some (Some (i, j))
    ∧ ¬ letters_agree i j wx wy.

(** A neighbour in [nbs] that is assigned and disagrees with [word]. *)
Definition neighbor_conflict (cw : Crossword) (a : Assignment) (var : Var)
    (word : string) (nbs : list Var) : Prop :=
  ∃ y wy i j, y ∈ nbs ∧ assignment_get a y = Some wy
    ∧ overlaps cw !! (var, y) = Some (Some (i, j))
    ∧ ¬ letters_agree i j word wy.

(** The assignments that the search visits: slots of the puzzle, each
    at most once, and the consistency check passes. *)
Definition visited (cw : Crossword) (a : Assignment) : Prop :=
  NoDup a.*1 ∧ (∀ v, v ∈ a.*1 → v ∈ variables cw) ∧ consistent cw a = Ok true.

(** A solution of the puzzle: one word for every slot and for nothing
    else, all words distinct, every word of the length of its slot, and
    the same letter on both sides of every overlap. *)
Definition valid_solution (cw : Crossword) (a : Assignment) : Prop :=
  NoDup a.*1
  ∧ (∀ v, v ∈ a.*1 ↔ v ∈ variables cw)
  ∧ NoDup a.*2
  ∧ (∀ v w, (v, w) ∈ a → String.length w = var_length v)
  ∧ (∀ x y wx wy, (x, wx) ∈ a → (y, wy) ∈ a → y ∈ neighbors cw x →
       ∃ i j, overlaps cw !! (x, y) = Some (Some (i, j)) ∧ letters_agree i j wx wy).

(** ** Search order *)

(** [key_lt] is the lexicographic order. *)
Definition key_less (k1 k2 : nat * Z) : Prop :=
  k1.1 < k2.1 ∨ (k1.1 = k2.1 ∧ (k1.2 < k2.2)%Z).

(** The key of a slot, read off the store. *)
Definition key_of (cw : Crossword) (d : Domains) (v : Var) : nat * Z :=
  (length (d !!! v), (- Z.of_nat (length (neighbors cw v)))%Z).

(** The order of [sorted] on keyed elements. *)
Definition key_le {A} (p q : nat * A) : Prop := p.1 ≤ q.1.

(** The same puzzle and the same dictionary, the sets being listed in
    possibly different orders. *)
Definition same_puzzle (cw1 cw2 : Crossword) : Prop :=
  variables cw1 ≡ₚ variables cw2
  ∧ words cw1 ≡ₚ words cw2
  ∧ overlaps cw1 = overlaps cw2.

(** ** Example puzzles *)

(** Two crossing slots. *)
Module Crossing.
Definition across : Var := mkVar 0 0 ACROSS 3.
Definition down : Var := mkVar 0 1 DOWN 3.

(** The second cell of [across] is the first cell of [down]. *)
Definition puzzle (dictionary : list string) : Crossword :=
  mkCrossword [across; down] dictionary
    (list_to_map [((across, down), Some (1, 0)); ((down, across), Some (0, 1))]).

Definition store (dx dy : list string) : Domains :=
  list_to_map [(across, dx); (down, dy)].
End Crossing.

Module OneSlot.
Definition slot : Var := mkVar 0 0 ACROSS 3.

(** Scenario A of the spec: a single slot of length 3. *)
Definition puzzle (dictionary : list string) : Crossword :=
  mkCrossword [slot] dictionary ∅.
End OneSlot.

(** The crossing puzzle with a dictionary that solves it, and its
    solution. *)
Module SolvedCrossing.
Definition dictionary : list string := ["CAT"; "ART"; "TO"].
Definition solution : Assignment :=
  [(Crossing.across, "CAT"); (Crossing.down, "ART")].
End SolvedCrossing.

(** ** Solutions inside a store *)

(** Every word of [c] is a candidate of its slot in the store [d]. *)
Definition within (d : Domains) (c : Assignment) : Prop :=
  ∀ v w, (v, w) ∈ c → ∃ dv, d !! v = Some dv ∧ w ∈ dv.

(** The arcs of a queue relate distinct slots of the puzzle. *)
Definition slot_arcs (cw : Crossword) (queue : list Arc) : Prop :=
  ∀ x y, (x, y) ∈ queue → x ∈ variables cw ∧ y ∈ variables cw ∧ x ≠ y.

(** ** Conflict counts *)

(** The number of words of [dnb] whose letter at [j] is not the letter of
    [val] at [i]. *)
Definition disagreeing (i j : nat) (val : string) (dnb : list string) : nat :=
  length (filter (λ w, ¬ letters_agree i j val w) dnb).

(** The number of candidates that [val] rules out among the unassigned
    neighbours of [var]. *)
Definition ruled_out (cw : Crossword) (d : Domains) (a : Assignment) (var : Var)
    (val : string) : nat :=
  sum_list_with
    (λ nb, match assignment_get a nb, overlaps cw !! (var, nb) with
           | None, Some (Some (i, j)) => disagreeing i j val (d !!! nb)
           | _, _ => 0
           end)
    (neighbors cw var).

(** ** Grids *)

(** The content of the cell [(i, j)] of a grid, if the grid has it. *)
Definition cell_at (letters : Grid) (i j : nat) : option (option ascii) :=
  row ← letters !! i; row !! j.

(** A grid of [height] rows of [width] cells. *)
Definition grid_shape (height width : nat) (letters : Grid) : Prop :=
  length letters = height ∧ Forall (λ row, length row = width) letters.

(** Every cell of every assigned word lies in the grid. *)
Definition fits (height width : nat) (a : Assignment) : Prop :=
  ∀ variable word k, (variable, word) ∈ a → k < String.length word →
    (cell variable k).1 < height ∧ (cell variable k).2 < width.

(** The letter [c] is written at the cell [(i, j)] by an entry of [a]. *)
Definition written (a : Assignment) (i j : nat) (c : ascii) : Prop :=
  ∃ variable word k, (variable, word) ∈ a ∧ String.get k word = Some c
    ∧ cell variable k = (i, j).

(** The state of the grid once the letters of the entries [a] are in it:
    its shape, every letter in it was written by an entry, and every cell
    an entry writes holds a letter. *)
Definition grid_invariant (height width : nat) (a : Assignment) (letters : Grid)
    : Prop :=
  grid_shape height width letters
  ∧ (∀ i j c, cell_at letters i j = Some (Some c) → written a i j c)
  ∧ (∀ i j c, written a i j c → is_Some (cell_at letters i j ≫= id)).

(** * Properties *)

(** ** Generalities on results *)

Lemma bind_Ok {A B} (m : result A) (f : A → result B) (b : B) :
  m ≫= f = Ok b → ∃ a, m = Ok a ∧ f a = Ok b.
Proof. destruct m as [a| |]; simpl; [eauto|done..]. Qed.

Lemma or_raise_Ok {A} e (o : option A) a : or_raise e o = Ok a ↔ o = Some a.
Proof. destruct o; simpl; naive_solver. Qed.

Lemma getitem_Ok w k c : getitem w k = Ok c ↔ String.get k w = Some c.
Proof. apply or_raise_Ok. Qed.

Lemma string_get_is_Some (w : string) (k : nat) :
  k < String.length w → is_Some (String.get k w).
Proof.
  revert k. induction w as [|c w IH]; intros k Hk; simpl in *; [lia|].
  destruct k as [|k]; [eauto|]. apply IH. lia.
Qed.

Section revise_facts.
Context (cw : Crossword).

Lemma supported_loop_Ok xval i j ys b :
  supported_loop xval i j ys = Ok b → (b = true ↔ supported i j ys xval).
Proof.
  revert b. induction ys as [|yval ys IH]; intros b H; simpl in H.
  - injection H as <-. split; [done|]. intros (? & ?%elem_of_nil & _). done.
  - apply bind_Ok in H as (a & Ha%getitem_Ok & H).
    apply bind_Ok in H as (c & Hc%getitem_Ok & H).
    destruct (decide (a = c)) as [->|Hne].
    + injection H as <-. split; [|done]. intros _.
      exists yval. split; [left|by exists c].
    + specialize (IH _ H). rewrite IH. split.
      * intros (w & Hw & ?). exists w. split; [by right|done].
      * intros (w & Hw & e & Hx & Hy). apply elem_of_cons in Hw as [->|Hw].
        -- congruence.
        -- exists w. split; [done|by exists e].
Qed.

Lemma supported_loop_total xval i j ys :
  is_Some (String.get i xval) → (∀ w, w ∈ ys → is_Some (String.get j w)) →
  ∃ b, supported_loop xval i j ys = Ok b.
Proof.
  intros [a Ha] Hys. induction ys as [|yval ys IH]; simpl; [eauto|].
  destruct (Hys yval) as [c Hc]; [left|].
  unfold getitem. rewrite Ha, Hc. simpl.
  destruct (decide (a = c)); [eauto|]. apply IH. intros w Hw. apply Hys. by right.
Qed.

Lemma revise_loop_Ok d y i j xs rem :
  revise_loop d y i j xs = Ok rem →
  (∀ w, w ∈ rem ↔ w ∈ xs ∧ ¬ supported i j (d !!! y) w)
  ∧ rem `sublist_of` xs.
Proof.
  revert rem. induction xs as [|xval xs IH]; intros rem H; simpl in H.
  - injection H as <-. split; [|done]. intros w. split; [by intros ?%elem_of_nil|].
    by intros [?%elem_of_nil _].
  - apply bind_Ok in H as (dy & Hdy%or_raise_Ok & H).
    apply bind_Ok in H as (b & Hb%supported_loop_Ok & H).
    apply bind_Ok in H as (rest & Hrest & H). injection H as <-.
    destruct (IH _ Hrest) as [IH1 IH2].
    rewrite lookup_total_alt, Hdy in *. simpl in *.
    destruct b.
    + split; [|by apply sublist_cons]. intros w. rewrite IH1, elem_of_cons.
      split; [naive_solver|]. intros [[->|?] Hn]; [|done].
      destruct Hn. by apply Hb.
    + split; [|by apply sublist_skip]. intros w. rewrite !elem_of_cons, IH1.
      split; [|naive_solver]. intros [->|?]; [|naive_solver].
      split; [by left|]. intros Hs%Hb. done.
Qed.

Lemma revise_loop_total d y i j dy xs :
  d !! y = Some dy →
  (∀ w, w ∈ xs → is_Some (String.get i w)) →
  (∀ w, w ∈ dy → is_Some (String.get j w)) →
  ∃ rem, revise_loop d y i j xs = Ok rem.
Proof.
  intros Hdy Hxs Hys. induction xs as [|xval xs IH]; simpl; [eauto|].
  unfold getdomain. rewrite Hdy. simpl.
  destruct (supported_loop_total xval i j dy) as [b ->]; [apply Hxs; left|done|].
  simpl. destruct IH as [rem ->]; [intros w Hw; apply Hxs; by right|].
  simpl. eauto.
Qed.

Lemma length_list_difference_le {A} `{!EqDecision A} (l k : list A) :
  length (list_difference l k) ≤ length l.
Proof.
  induction l as [|a l IH]; simpl; [done|].
  destruct (decide_rel _ a k); simpl; lia.
Qed.

Lemma length_list_difference_lt (l k : list string) x :
  x ∈ l → x ∈ k → length (list_difference l k) < length l.
Proof.
  intros Hl Hk. induction l as [|a l IH]; [by apply elem_of_nil in Hl|].
  simpl. pose proof (length_list_difference_le l k).
  apply elem_of_cons in Hl as [<-|Hl].
  - destruct (decide_rel _ x k); [lia|done].
  - specialize (IH Hl). destruct (decide_rel _ a k); simpl; lia.
Qed.

(** What a successful call of [revise] has done. *)
Lemma revise_inv x y d b d' :
  revise cw x y d = Ok (b, d') →
  ∃ o, overlaps cw !! (x, y) = Some o ∧
    match o with
    | None => b = false ∧ d' = d
    | Some (i, j) =>
        ∃ dx dx', d !! x = Some dx ∧ d' = <[x := dx']> d
          ∧ (∀ w, w ∈ dx' ↔ w ∈ dx ∧ supported i j (d !!! y) w)
          ∧ (b = true ↔ ∃ w, w ∈ dx ∧ ¬ supported i j (d !!! y) w)
          ∧ (if b then length dx' < length dx else dx' = dx)
    end.
Proof.
  unfold revise. intros H.
  apply bind_Ok in H as (o & Ho%or_raise_Ok & H). exists o. split; [done|].
  destruct o as [[i j]|]; [|by injection H as <- <-].
  apply bind_Ok in H as (dx & Hdx%or_raise_Ok & H).
  apply bind_Ok in H as (rem & [Hrem Hsub]%revise_loop_Ok & H).
  exists dx. destruct rem as [|r rem].
  - injection H as <- <-. exists dx. refine (conj Hdx (conj _ (conj _ (conj _ eq_refl)))); [by rewrite insert_id| |].
    + intros w. split; [|naive_solver]. intros Hw. split; [done|].
      apply dec_stable. intros Hn. apply (not_elem_of_nil w), Hrem. done.
    + split; [done|]. intros (w & Hw & Hn). exfalso. by apply (not_elem_of_nil w), Hrem.
  - injection H as <- <-. exists (list_difference dx (r :: rem)).
    refine (conj Hdx (conj eq_refl (conj _ (conj _ _)))).
    + intros w. rewrite list_elem_of_difference, Hrem. split.
      * intros [Hw Hn]. split; [done|]. apply dec_stable. naive_solver.
      * naive_solver.
    + split; [|done]. intros _. exists r. apply Hrem. left.
    + apply (length_list_difference_lt _ _ r); [|left].
      eapply Hrem. left.
Qed.

(** [revise] leaves the set of keys of the store as it is. *)
Lemma revise_dom x y d b d' :
  revise cw x y d = Ok (b, d') → dom d' = dom d.
Proof.
  intros (o & _ & H)%revise_inv. destruct o as [[i j]|]; [|by destruct H as [_ ->]].
  destruct H as (dx & dx' & Hdx & -> & _). rewrite dom_insert_L.
  apply elem_of_dom_2 in Hdx. set_solver.
Qed.

(** [revise] only removes words. *)
Lemma revise_subseteq x y d b d' z dz' :
  revise cw x y d = Ok (b, d') → d' !! z = Some dz' →
  ∃ dz, d !! z = Some dz ∧ dz' ⊆ dz.
Proof.
  intros (o & _ & H)%revise_inv Hz. destruct o as [[i j]|].
  - destruct H as (dx & dx' & Hdx & -> & Hin & _).
    destruct (decide (x = z)) as [<-|Hne].
    + rewrite lookup_insert_eq in Hz. injection Hz as <-. exists dx.
      split; [done|]. intros w Hw. by apply Hin.
    + rewrite lookup_insert_ne in Hz by done. by exists dz'.
  - destruct H as [_ ->]. by exists dz'.
Qed.

End revise_facts.

(** ** Arc revision (C4, C10) *)

(** C4. For a pair of slots [(x, y)] of the overlap table and a store in
    which the overlap indices lie within the candidate words of both slots,
    [revise] returns.  If the overlap is none it returns [False] and the
    store is unchanged; otherwise the words left in the domain of [x] are
    exactly the candidates that have a support in the domain of [y], and it
    returns [True] iff some candidate was removed. *)
Theorem revise_correct (cw : Crossword) (x y : Var) (d : Domains)
    (o : option (nat * nat)) (dx dy : list string) :
  overlaps cw !! (x, y) = Some o →
  d !! x = Some dx →
  d !! y = Some dy →
  (∀ i j, o = Some (i, j) →
     (∀ w, w ∈ dx → i < String.length w) ∧ (∀ w, w ∈ dy → j < String.length w)) →
  ∃ revised d',
    revise cw x y d = Ok (revised, d') ∧
    match o with
    | None => revised = false ∧ d' = d
    | Some (i, j) =>
        ∃ dx', d' !! x = Some dx'
          ∧ (∀ w, w ∈ dx' ↔ w ∈ dx ∧ supported i j dy w)
          ∧ (revised = true ↔ ∃ w, w ∈ dx ∧ ¬ supported i j dy w)
    end.
Proof.
  intros Ho Hdx Hdy Hrange.
  assert (∃ r, revise cw x y d = Ok r) as [[revised d'] Hr].
  { unfold revise, getoverlap, getdomain. rewrite Ho. simpl.
    destruct o as [[i j]|]; [|eauto]. rewrite Hdx. simpl.
    destruct (Hrange i j eq_refl) as [Hi Hj].
    destruct (revise_loop_total d y i j dy dx) as [rem ->]; [done|..].
    - intros w Hw. by apply string_get_is_Some, Hi.
    - intros w Hw. by apply string_get_is_Some, Hj.
    - simpl. destruct rem; eauto. }
  exists revised, d'. split; [done|].
  apply revise_inv in Hr as (o' & Ho' & H).
  assert (o' = o) as -> by congruence.
  destruct o as [[i j]|]; [|done].
  destruct H as (dx0 & dx' & Hdx0 & -> & Hin & Hrev & _).
  assert (dx0 = dx) as -> by congruence.
  rewrite lookup_total_alt, Hdy in *. simpl in *.
  exists dx'. by rewrite lookup_insert_eq.
Qed.

Lemma revise_correct_witness :
  ∃ revised d',
    revise (Crossing.puzzle []) Crossing.across Crossing.down
      (Crossing.store ["CAT"; "ART"] ["ART"]) = Ok (revised, d')
    ∧ ∃ dx', d' !! Crossing.across = Some dx'
        ∧ (∀ w, w ∈ dx' ↔ w ∈ ["CAT"; "ART"] ∧ supported 1 0 ["ART"] w)
        ∧ (revised = true ↔ ∃ w, w ∈ ["CAT"; "ART"] ∧ ¬ supported 1 0 ["ART"] w).
Proof.
  apply (revise_correct (Crossing.puzzle []) Crossing.across Crossing.down
           (Crossing.store ["CAT"; "ART"] ["ART"]) (Some (1, 0))
           ["CAT"; "ART"] ["ART"]).
  - reflexivity.
  - reflexivity.
  - reflexivity.
  - intros i j [= <- <-]. split; intros w Hw.
    + repeat (apply elem_of_cons in Hw as [->|Hw]; [simpl; lia|]).
      by apply elem_of_nil in Hw.
    + repeat (apply elem_of_cons in Hw as [->|Hw]; [simpl; lia|]).
      by apply elem_of_nil in Hw.
Defined.

(** C10. A call of [revise x y] that returns has changed at most the entry
    of [x]: the domain of every other slot, [y] included, is what it
    was. *)
Theorem revise_frame (cw : Crossword) (x y : Var) (d d' : Domains) (revised : bool) :
  revise cw x y d = Ok (revised, d') →
  ∀ z, z ≠ x → d' !! z = d !! z.
Proof.
  intros (o & _ & H)%revise_inv z Hz. destruct o as [[i j]|].
  - destruct H as (dx & dx' & _ & -> & _). by rewrite lookup_insert_ne.
  - by destruct H as [_ ->].
Qed.

Lemma revise_frame_witness :
  <[Crossing.across := ["CAT"]]> (Crossing.store ["CAT"; "ART"] ["ART"]) !! Crossing.down
  = Crossing.store ["CAT"; "ART"] ["ART"] !! Crossing.down.
Proof.
  apply (revise_frame (Crossing.puzzle []) Crossing.across Crossing.down
           (Crossing.store ["CAT"; "ART"] ["ART"]) _ true).
  - vm_compute. reflexivity.
  - discriminate.
Defined.

(** ** Node consistency (C6) *)

Section node_consistency.
Context (cw : Crossword).

Lemma enforce_node_consistency_lookup d v :
  enforce_node_consistency d !! v =
  (λ dom, list_difference dom
            (filter (λ word, String.length word ≠ var_length v) dom)) <$> d !! v.
Proof.
  unfold enforce_node_consistency. rewrite map_lookup_imap.
  by destruct (d !! v).
Qed.

Lemma enforce_node_consistency_elem_of d v dv w :
  d !! v = Some dv →
  ∃ dv', enforce_node_consistency d !! v = Some dv'
    ∧ (w ∈ dv' ↔ w ∈ dv ∧ String.length w = var_length v).
Proof.
  intros Hv. rewrite enforce_node_consistency_lookup, Hv. simpl.
  eexists. split; [done|].
  rewrite list_elem_of_difference, list_elem_of_filter. split.
  - intros [Hw Hn]. split; [done|].
    destruct (decide (String.length w = var_length v)); [done|]. naive_solver.
  - naive_solver.
Qed.

Lemma enforce_node_consistency_sound d :
  node_consistent (enforce_node_consistency d).
Proof.
  intros v dv' w Hv Hw. rewrite enforce_node_consistency_lookup in Hv.
  destruct (d !! v) as [dv|] eqn:Hdv; [|done].
  destruct (enforce_node_consistency_elem_of d v dv w Hdv) as (dv'' & Hl & Hiff).
  rewrite enforce_node_consistency_lookup, Hdv in Hl.
  assert (dv'' = dv') as -> by congruence. by apply Hiff.
Qed.

Lemma revise_node_consistent x y d revised d' :
  node_consistent d → revise cw x y d = Ok (revised, d') → node_consistent d'.
Proof.
  intros Hd Hr v dv' w Hv Hw.
  destruct (revise_subseteq cw x y d revised d' v dv' Hr Hv) as (dv & Hdv & Hsub).
  eapply Hd; [done|]. by apply Hsub.
Qed.

(** A property of the store that every successful [revise] keeps is kept
    by the whole loop of [ac3]. *)
Lemma ac3_loop_preserves (P : Domains → Prop) :
  (∀ x y d revised d', P d → revise cw x y d = Ok (revised, d') → P d') →
  ∀ fuel queue d ok d',
    P d → ac3_loop cw fuel queue d = Ok (ok, d') → P d'.
Proof.
  intros Hrev. induction fuel as [|fuel IH]; intros queue d ok d' HP H; [done|].
  simpl in H. destruct queue as [|[x y] queue]; [by injection H as <- <-|].
  apply bind_Ok in H as ([revised d1] & Hr & H).
  pose proof (Hrev _ _ _ _ _ HP Hr) as HP1.
  destruct revised; [|by eapply IH].
  apply bind_Ok in H as (dx & _ & H).
  destruct (decide (length dx = 0)); [by injection H as <- <-|by eapply IH].
Qed.

Lemma ac3_node_consistent arcs d ok d' :
  node_consistent d → ac3 cw d arcs = Ok (ok, d') → node_consistent d'.
Proof.
  intros Hd H. eapply (ac3_loop_preserves node_consistent); [|done|done].
  intros ?????. apply revise_node_consistent.
Qed.

Lemma pipeline_step_node_consistent d d' :
  pipeline_step cw d d' → node_consistent d → node_consistent d'.
Proof.
  intros [x y d0 revised d1 H|arcs d0 ok d1 H|] Hd.
  - by eapply revise_node_consistent.
  - by eapply ac3_node_consistent.
  - done.
Qed.

End node_consistency.

(** C6. Right after node consistency every word of every domain has the
    length of its slot, and so it is after any sequence of calls of
    [revise], [ac3] and [backtrack] that follows. *)
Theorem node_consistency_invariant (cw : Crossword) (d d' : Domains) :
  rtc (pipeline_step cw) (enforce_node_consistency d) d' →
  node_consistent d'.
Proof.
  intros Hsteps.
  assert (node_consistent (enforce_node_consistency d)) as Hd
    by apply enforce_node_consistency_sound.
  induction Hsteps as [|d0 d1 d2 Hstep _ IH]; [done|].
  apply IH. by eapply pipeline_step_node_consistent.
Qed.

Lemma node_consistency_invariant_witness :
  node_consistent (Crossing.store ["CAT"] ["ART"]).
Proof.
  apply (node_consistency_invariant (Crossing.puzzle ["CAT"; "ART"; "TO"])
           (init_domains (Crossing.puzzle ["CAT"; "ART"; "TO"]))).
  eapply rtc_l.
  { apply (step_ac3 _ None _ true (Crossing.store ["CAT"] ["ART"])).
    vm_compute. reflexivity. }
  eapply rtc_l; [|apply rtc_refl].
  apply (step_backtrack _ 3 [] _
           (Some [(Crossing.across, "CAT"); (Crossing.down, "ART")])).
  vm_compute. reflexivity.
Defined.

(** ** The loop of AC-3 (C7) *)

Section ac3_facts.
Context (cw : Crossword).

Lemma length_neighbors x : length (neighbors cw x) ≤ length (variables cw).
Proof. apply length_filter. Qed.

Lemma elem_of_neighbors x y :
  y ∈ neighbors cw x ↔
  y ∈ variables cw ∧ y ≠ x ∧ ∃ ij, overlaps cw !! (x, y) = Some (Some ij).
Proof.
  unfold neighbors. rewrite list_elem_of_filter.
  destruct (overlaps cw !! (x, y)) as [[ij|]|]; simpl.
  - split; [intros [[? _] ?]; eauto|]. intros (? & ? & _). eauto.
  - split; [intros [[_ []] _]; done|]. by intros (_ & _ & ? & ?).
  - split; [intros [[_ []] _]; done|]. by intros (_ & _ & ? & ?).
Qed.

Lemma domains_size_insert (d : Domains) x dx dx' :
  d !! x = Some dx →
  domains_size (<[x := dx']> d) + length dx = domains_size d + length dx'.
Proof.
  intros Hx. unfold domains_size.
  rewrite <-(map_to_list_delete d x dx Hx), <-insert_delete_eq.
  rewrite map_to_list_insert by apply lookup_delete_eq. simpl. lia.
Qed.

Lemma revise_domains_size x y d revised d' :
  revise cw x y d = Ok (revised, d') →
  if revised then domains_size d' < domains_size d else d' = d.
Proof.
  intros (o & _ & H)%revise_inv. destruct o as [[i j]|].
  - destruct H as (dx & dx' & Hdx & -> & _ & _ & Hlen). destruct revised.
    + pose proof (domains_size_insert d x dx dx' Hdx). lia.
    + subst dx'. by apply insert_id.
  - by destruct H as [-> ->].
Qed.

End ac3_facts.

(** C7. One turn of the loop of [ac3], when the call of [revise] on the
    first arc [(x, y)] of the queue returns.  The arc is taken from the
    front; if the domain of [x] was narrowed to empty the loop returns
    [False] at once; if it was narrowed and is not empty, the arcs
    [(z, x)], for the neighbours [z] of [x] other than [y], go to the back
    of the queue; if it was not narrowed the loop goes on with the rest of
    the queue. *)
Theorem ac3_loop_step (cw : Crossword) (fuel : nat) (x y : Var)
    (queue : list Arc) (d d' : Domains) (revised : bool) :
  revise cw x y d = Ok (revised, d') →
  ∃ added : list Arc,
    (∀ a, a ∈ added ↔ ∃ z, a = (z, x) ∧ z ∈ neighbors cw x ∧ z ≠ y)
    ∧ ac3_loop cw (S fuel) ((x, y) :: queue) d =
        if revised then
          if decide (d' !!! x = []) then Ok (false, d')
          else ac3_loop cw fuel (queue ++ added) d'
        else ac3_loop cw fuel queue d'.
Proof.
  intros Hr. exists ((λ z, (z, x)) <$> list_difference (neighbors cw x) [y]). split.
  - intros a. rewrite list_elem_of_fmap. split.
    + intros (z & -> & [Hz Hy]%list_elem_of_difference). exists z.
      split_and!; [done..|]. intros ->. apply Hy. left.
    + intros (z & -> & Hz & Hy). exists z. split; [done|].
      apply list_elem_of_difference. split; [done|]. by intros ->%list_elem_of_singleton.
  - simpl. rewrite Hr. simpl. destruct revised; [|done].
    apply revise_inv in Hr as (o & _ & H). destruct o as [[i j]|]; [|by destruct H].
    destruct H as (dx & dx' & _ & -> & _).
    unfold getdomain. rewrite lookup_total_insert_eq, lookup_insert_eq. simpl.
    destruct dx'; simpl; repeat case_decide; done.
Qed.

Lemma ac3_loop_step_witness :
  ∃ added : list Arc,
    (∀ a, a ∈ added ↔
       ∃ z, a = (z, Crossing.across)
            ∧ z ∈ neighbors (Crossing.puzzle []) Crossing.across ∧ z ≠ Crossing.down)
    ∧ ac3_loop (Crossing.puzzle []) 3
        [(Crossing.across, Crossing.down); (Crossing.down, Crossing.across)]
        (Crossing.store ["CAT"; "ART"] ["ART"]) =
      if decide (Crossing.store ["CAT"] ["ART"] !!! Crossing.across = [])
      then Ok (false, Crossing.store ["CAT"] ["ART"])
      else ac3_loop (Crossing.puzzle []) 2
             ([(Crossing.down, Crossing.across)] ++ added)
             (Crossing.store ["CAT"] ["ART"]).
Proof.
  apply (ac3_loop_step (Crossing.puzzle []) 2 Crossing.across Crossing.down
           [(Crossing.down, Crossing.across)]
           (Crossing.store ["CAT"; "ART"] ["ART"])
           (Crossing.store ["CAT"] ["ART"]) true).
  vm_compute. reflexivity.
Defined.

(** ** Termination of the loop of AC-3 *)

Section termination.
Context (cw : Crossword).

Lemma bind_not_Diverge {A B} (m : result A) (f : A → result B) :
  m ≠ Diverge → (∀ a, m = Ok a → f a ≠ Diverge) → m ≫= f ≠ Diverge.
Proof. destruct m; simpl; [eauto|done..]. Qed.

Lemma or_raise_not_Diverge {A} e (o : option A) : or_raise e o ≠ Diverge.
Proof. by destruct o. Qed.

Lemma supported_loop_not_Diverge xval i j ys :
  supported_loop xval i j ys ≠ Diverge.
Proof.
  induction ys as [|yval ys IH]; simpl; [done|].
  apply bind_not_Diverge; [apply or_raise_not_Diverge|]. intros a _.
  apply bind_not_Diverge; [apply or_raise_not_Diverge|]. intros b _.
  by destruct (decide (a = b)).
Qed.

Lemma revise_loop_not_Diverge d y i j xs :
  revise_loop d y i j xs ≠ Diverge.
Proof.
  induction xs as [|xval xs IH]; simpl; [done|].
  apply bind_not_Diverge; [apply or_raise_not_Diverge|]. intros dy _.
  apply bind_not_Diverge; [apply supported_loop_not_Diverge|]. intros b _.
  apply bind_not_Diverge; [done|]. done.
Qed.

Lemma revise_not_Diverge x y d : revise cw x y d ≠ Diverge.
Proof.
  unfold revise.
  apply bind_not_Diverge; [apply or_raise_not_Diverge|]. intros [[i j]|] _; [|done].
  apply bind_not_Diverge; [apply or_raise_not_Diverge|]. intros dx _.
  apply bind_not_Diverge; [apply revise_loop_not_Diverge|]. by intros [|] _.
Qed.

(** Every turn of the loop lowers the length of the queue plus
    [S (length variables)] times the size of the store. *)
Lemma ac3_loop_fuel fuel queue d :
  length queue + domains_size d * S (length (variables cw)) < fuel →
  ac3_loop cw fuel queue d ≠ Diverge.
Proof.
  revert queue d. induction fuel as [|fuel IH]; intros queue d Hfuel; [lia|].
  simpl. destruct queue as [|[x y] queue]; [done|]. simpl in Hfuel.
  apply bind_not_Diverge; [apply revise_not_Diverge|].
  intros [revised d'] Hr. pose proof (revise_domains_size cw _ _ _ _ _ Hr) as Hsize.
  destruct revised.
  - apply bind_not_Diverge; [apply or_raise_not_Diverge|]. intros dx _.
    destruct (decide (length dx = 0)); [done|]. apply IH.
    rewrite length_app, length_fmap.
    pose proof (length_list_difference_le (neighbors cw x) [y]).
    pose proof (length_neighbors cw x). nia.
  - subst d'. apply IH. lia.
Qed.

Lemma ac3_not_Diverge d arcs : ac3 cw d arcs ≠ Diverge.
Proof. unfold ac3, ac3_fuel. apply ac3_loop_fuel. lia. Qed.

End termination.

(** ** Arc consistency after AC-3 (C3) *)

Section arc_consistency.
Context (cw : Crossword) (Hsym : overlaps_symmetric cw).

Lemma is_arc_sym x y : is_arc cw (x, y) → is_arc cw (y, x).
Proof.
  unfold is_arc. simpl. intros [Hx (Hy & Hne & [i j] & Ho)%elem_of_neighbors].
  split; [done|]. apply elem_of_neighbors. split_and!; [done..|].
  exists (j, i). by apply Hsym.
Qed.

Lemma elem_of_all_arcs a : a ∈ all_arcs cw ↔ is_arc cw a.
Proof.
  unfold all_arcs, is_arc. rewrite list_elem_of_bind. split.
  - intros (x & (y & ->%list_elem_of_singleton & Hy)%list_elem_of_bind & Hx). done.
  - destruct a as [x y]. simpl. intros [Hx Hy]. exists x. split; [|done].
    apply list_elem_of_bind. exists y. split; [left|done].
Qed.

Lemma ac3_invariant_step x y queue d revised d' :
  ac3_invariant cw ((x, y) :: queue) d →
  revise cw x y d = Ok (revised, d') →
  ac3_invariant cw
    (if revised
     then queue ++ ((λ z, (z, x)) <$> list_difference (neighbors cw x) [y])
     else queue) d'.
Proof.
  intros [Hq Hc] Hr.
  assert (is_arc cw (x, y)) as Hxy by (apply Hq; left).
  pose proof Hxy as [Hx (Hy & Hne & [i j] & Ho)%elem_of_neighbors]. simpl in *.
  apply revise_inv in Hr as (o & Ho' & H). rewrite Ho in Ho'. injection Ho' as <-.
  destruct H as (dx & dx' & Hdx & -> & Hin & _ & Hlen).
  destruct revised.
  - split.
    + intros a [Ha|Ha]%elem_of_app; [apply Hq; by right|].
      apply list_elem_of_fmap in Ha as (z & -> & [Hz _]%list_elem_of_difference).
      by apply is_arc_sym.
    + intros u v Huv Hnotin i' j' du wu Ho' Hdu Hwu.
      apply not_elem_of_app in Hnotin as [Hnq Hna].
      destruct (decide (u = x)) as [->|Hux].
      * rewrite lookup_insert_eq in Hdu. injection Hdu as <-.
        apply Hin in Hwu as [Hwu Hsup].
        assert (v ≠ x) as Hvx by (destruct Huv as [_ ?%elem_of_neighbors]; naive_solver).
        rewrite lookup_total_insert_ne by done.
        destruct (decide (v = y)) as [->|Hvy]; [by simplify_eq/=|].
        eapply (Hc x v); [done| |done..].
        intros [[=]|?]%elem_of_cons; done.
      * rewrite lookup_insert_ne in Hdu by done.
        destruct (decide (v = x)) as [->|Hvx].
        -- destruct (decide (u = y)) as [->|Huy].
           ++ pose proof (Hsym _ _ _ _ Hy Hx Ho') as Ho2.
              rewrite Ho in Ho2. injection Ho2 as -> ->.
              rewrite lookup_total_insert_eq.
              destruct (Hc y x Huv) with (i := i') (j := j') (dx := du) (wx := wu)
                as (wx & Hwx & c & Hgu & Hgx); [|done..|].
              { intros [[=]|?]%elem_of_cons; done. }
              rewrite lookup_total_alt, Hdx in Hwx. simpl in Hwx.
              exists wx. split; [|by exists c]. apply Hin. split; [done|].
              exists wu. rewrite lookup_total_alt, Hdu. split; [done|by exists c].
           ++ destruct Hna. apply list_elem_of_fmap. exists u. split; [done|].
              apply list_elem_of_difference.
              split; [|by intros ?%list_elem_of_singleton].
              by destruct (is_arc_sym _ _ Huv).
        -- rewrite lookup_total_insert_ne by done.
           eapply (Hc u v); [done| |done..].
           intros [[=]|?]%elem_of_cons; done.
  - subst dx'. rewrite insert_id by done. split; [intros a Ha; apply Hq; by right|].
    intros u v Huv Hnotin. destruct (decide ((u, v) = (x, y))) as [[= -> ->]|Hne'].
    + intros i' j' du wu Ho' Hdu Hwu. simplify_eq. by apply Hin.
    + apply Hc; [done|]. intros [?|?]%elem_of_cons; done.
Qed.

Lemma ac3_loop_sound fuel queue d d' :
  ac3_invariant cw queue d →
  ac3_loop cw fuel queue d = Ok (true, d') →
  ∀ x y, is_arc cw (x, y) → arc_consistent cw d' x y.
Proof.
  revert queue d. induction fuel as [|fuel IH]; intros queue d Hinv H; [done|].
  simpl in H. destruct queue as [|[x y] queue].
  - injection H as <-. intros u v Huv. apply Hinv; [done|]. apply not_elem_of_nil.
  - apply bind_Ok in H as ([revised d1] & Hr & H).
    pose proof (ac3_invariant_step _ _ _ _ _ _ Hinv Hr) as Hinv1.
    destruct revised; [|by eapply IH].
    apply bind_Ok in H as (dx & _ & H).
    destruct (decide (length dx = 0)); [done|by eapply IH].
Qed.

End arc_consistency.

(** C3. If [ac3], called without arcs on a puzzle whose overlap table is
    symmetric, returns [True], then for all neighbouring slots [(x, y)]
    every word left in the domain of [x] has a support in the domain of
    [y]: a word that carries, at the index of [y] in the overlap, the
    letter the first one carries at the index of [x]. *)
Theorem ac3_arc_consistent (cw : Crossword) (d d' : Domains) :
  overlaps_symmetric cw →
  ac3 cw d None = Ok (true, d') →
  ∀ x y, x ∈ variables cw → y ∈ neighbors cw x →
    ∃ i j, overlaps cw !! (x, y) = Some (Some (i, j))
      ∧ ∀ dx wx, d' !! x = Some dx → wx ∈ dx →
          ∃ dy wy c, d' !! y = Some dy ∧ wy ∈ dy
            ∧ String.get i wx = Some c ∧ String.get j wy = Some c.
Proof.
  intros Hsym Hac3 x y Hx Hy.
  pose proof Hy as (_ & _ & [i j] & Ho)%elem_of_neighbors.
  exists i, j. split; [done|]. intros dx wx Hdx Hwx.
  assert (arc_consistent cw d' x y) as Hcons.
  { eapply (ac3_loop_sound cw Hsym _ (all_arcs cw) d); [|exact Hac3|done].
    split; [intros a; apply elem_of_all_arcs|].
    intros u v Huv Hn. destruct Hn. by apply elem_of_all_arcs. }
  destruct (Hcons i j dx wx Ho Hdx Hwx) as (wy & Hwy & c & Hgx & Hgy).
  rewrite lookup_total_alt in Hwy.
  destruct (d' !! y) as [dy|]; simpl in Hwy; [|by apply elem_of_nil in Hwy].
  by exists dy, wy, c.
Qed.

(** ** The consistency check (C5) *)

Section assignment_facts.

Lemma assignment_get_elem_of (a : Assignment) v w :
  assignment_get a v = Some w → (v, w) ∈ a.
Proof.
  induction a as [|[k w'] a IH]; simpl; [done|].
  destruct (decide (k = v)) as [->|]; [intros [= ->]; left|right; auto].
Qed.

Lemma assignment_get_None (a : Assignment) v :
  assignment_get a v = None ↔ v ∉ a.*1.
Proof.
  induction a as [|[k w'] a IH]; simpl; [split; [intros _; apply not_elem_of_nil|done]|].
  rewrite not_elem_of_cons. destruct (decide (k = v)) as [->|]; naive_solver.
Qed.

Lemma elem_of_assignment_get (a : Assignment) v w :
  NoDup a.*1 → (v, w) ∈ a → assignment_get a v = Some w.
Proof.
  induction a as [|[k w'] a IH]; simpl; [by intros _ ?%elem_of_nil|].
  intros [Hk Hnd]%NoDup_cons [[= -> ->]|Hin]%elem_of_cons.
  - by rewrite decide_True.
  - rewrite decide_False; [auto|]. intros ->. apply Hk.
    apply list_elem_of_fmap. by exists (v, w).
Qed.

Lemma length_remove_dups_le (l : list string) :
  length (remove_dups l) ≤ length l.
Proof.
  induction l as [|x l IH]; simpl; [done|].
  destruct (decide_rel _ x l); simpl; lia.
Qed.

Lemma length_remove_dups_NoDup (l : list string) :
  length l = length (remove_dups l) ↔ NoDup l.
Proof.
  induction l as [|x l IH]; simpl; [split; [constructor|done]|].
  pose proof (length_remove_dups_le l). rewrite NoDup_cons.
  destruct (decide_rel _ x l); simpl.
  - split; [lia|]. by intros [? _].
  - rewrite <-IH. split; [intros [=]; done|intros [_ ->]; done].
Qed.

Lemma NoDup_values_duplicate_word (a : Assignment) :
  NoDup a.*1 → (¬ NoDup a.*2 ↔ duplicate_word a).
Proof.
  intros Hkeys. split.
  - induction a as [|[k w] a IH]; simpl; [intros []; constructor|].
    apply NoDup_cons in Hkeys as [Hk Hkeys]. intros Hn.
    destruct (decide (w ∈ a.*2)) as [Hw|Hw].
    + apply list_elem_of_fmap in Hw as ([k' w'] & -> & Hin). simpl.
      exists k, k', w'. split_and!; [|left|by right].
      intros ->. apply Hk. apply list_elem_of_fmap. by exists (k', w').
    + destruct IH as (x & y & w0 & Hne & Hx & Hy); [done| |].
      { intros Hnd. apply Hn. by constructor. }
      exists x, y, w0. split_and!; [done|by right..].
  - intros (x & y & w & Hne & Hx & Hy) Hnd.
    apply list_elem_of_lookup in Hx as [n Hn], Hy as [m Hm].
    assert (n = m) as ->.
    { eapply (NoDup_lookup _ _ _ w Hnd); rewrite list_lookup_fmap.
      - by rewrite Hn.
      - by rewrite Hm. }
    congruence.
Qed.

End assignment_facts.

Section consistent_facts.
Context (cw : Crossword).

Lemma consistent_neighbors_Ok a var word nbs b :
  consistent_neighbors cw a var word nbs = Ok b →
  (b = false ↔ neighbor_conflict cw a var word nbs).
Proof.
  unfold neighbor_conflict.
  revert b. induction nbs as [|nb nbs IH]; intros b H; simpl in H.
  - injection H as <-. split; [done|]. by intros (? & ? & ? & ? & ?%elem_of_nil & _).
  - assert (∀ b, consistent_neighbors cw a var word nbs = Ok b →
      (∀ wy i j, assignment_get a nb = Some wy →
         overlaps cw !! (var, nb) = Some (Some (i, j)) →
         letters_agree i j word wy) →
      (b = false ↔ ∃ y wy i j, y ∈ nb :: nbs ∧ assignment_get a y = Some wy
         ∧ overlaps cw !! (var, y) = Some (Some (i, j))
         ∧ ¬ letters_agree i j word wy)) as Hskip.
    { intros b' Hb' Hnb. rewrite (IH _ Hb'). split.
      - intros (y & wy & i & j & Hy & Hrest). exists y, wy, i, j. split; [by right|done].
      - intros (y & wy & i & j & [->|Hy]%elem_of_cons & Hget & Ho & Hne).
        + destruct Hne. eauto.
        + by exists y, wy, i, j. }
    destruct (assignment_get a nb) as [nword|] eqn:Hget; [|by apply Hskip].
    apply bind_Ok in H as (o & Ho%or_raise_Ok & H).
    destruct o as [[i j]|]; [|apply Hskip; [done|congruence]].
    apply bind_Ok in H as (c1 & Hc1%getitem_Ok & H).
    apply bind_Ok in H as (c2 & Hc2%getitem_Ok & H).
    destruct (decide (c1 ≠ c2)) as [Hne|Heq].
    + injection H as <-. split; [|done]. intros _. exists nb, nword, i, j.
      split_and!; [left|done..|]. intros (c & ? & ?). congruence.
    + apply Hskip; [done|]. intros wy i' j' [= <-] Ho'. simplify_eq.
      apply dec_stable in Heq. exists c1. by subst c2.
Qed.

Lemma consistent_neighbors_total a var word nbs :
  (∀ y wy i j, y ∈ nbs → assignment_get a y = Some wy →
     overlaps cw !! (var, y) = Some (Some (i, j)) →
     i < String.length word ∧ j < String.length wy) →
  (∀ y, y ∈ nbs → is_Some (overlaps cw !! (var, y))) →
  ∃ b, consistent_neighbors cw a var word nbs = Ok b.
Proof.
  intros Hrange Hdef. induction nbs as [|nb nbs IH]; simpl; [eauto|].
  assert (∃ b, consistent_neighbors cw a var word nbs = Ok b) as Hrest.
  { apply IH; intros; [eapply Hrange|eapply Hdef]; try done; by right. }
  destruct (assignment_get a nb) as [nword|] eqn:Hget; [|done].
  destruct (Hdef nb) as [o Ho]; [left|]. unfold getoverlap. rewrite Ho. simpl.
  destruct o as [[i j]|]; [|done].
  destruct (Hrange nb nword i j) as [Hi Hj]; [left|done..|].
  apply string_get_is_Some in Hi as [c1 Hc1], Hj as [c2 Hc2].
  unfold getitem. rewrite Hc1, Hc2. simpl. destruct (decide (c1 ≠ c2)); eauto.
Qed.

Lemma consistent_overlaps_Ok a items b :
  consistent_overlaps cw a items = Ok b →
  (b = false ↔
   ∃ x wx, (x, wx) ∈ items ∧ neighbor_conflict cw a x wx (neighbors cw x)).
Proof.
  revert b. induction items as [|[var word] items IH]; intros b H; simpl in H.
  - injection H as <-. split; [done|]. by intros (? & ? & ?%elem_of_nil & _).
  - apply bind_Ok in H as (ok & Hok%consistent_neighbors_Ok & H). destruct ok.
    + rewrite (IH _ H). split.
      * intros (x & wx & Hx & Hc). exists x, wx. split; [by right|done].
      * intros (x & wx & [[= -> ->]|Hx]%elem_of_cons & Hc).
        -- by apply Hok in Hc.
        -- by exists x, wx.
    + injection H as <-. split; [|done]. intros _. exists var, word.
      split; [left|]. by apply Hok.
Qed.

Lemma consistent_overlaps_total a items :
  (∀ x wx, (x, wx) ∈ items →
     ∃ b, consistent_neighbors cw a x wx (neighbors cw x) = Ok b) →
  ∃ b, consistent_overlaps cw a items = Ok b.
Proof.
  intros Hitems. induction items as [|[var word] items IH]; simpl; [eauto|].
  destruct (Hitems var word) as [ok ->]; [left|]. simpl.
  destruct ok; [|eauto]. apply IH. intros x wx Hx. apply Hitems. by right.
Qed.

Lemma consistent_lengths (a : Assignment) :
  forallb (λ '(var, word), bool_decide (String.length word = var_length var)) a
    = false ↔ length_mismatch a.
Proof.
  unfold length_mismatch. induction a as [|[v w] a IH]; simpl.
  - split; [done|]. by intros (? & ? & ?%elem_of_nil & _).
  - rewrite andb_false_iff, IH, bool_decide_eq_false. split.
    + intros [Hne|(x & wx & Hx & Hne)]; [exists v, w|exists x, wx];
        (split; [|done]); [left|by right].
    + intros (x & wx & [[= -> ->]|Hx]%elem_of_cons & Hne); [by left|].
      right. by exists x, wx.
Qed.

(** What [consistent] has found when it returns. *)
Lemma consistent_Ok a b :
  NoDup a.*1 →
  consistent cw a = Ok b →
  (b = false ↔ length_mismatch a ∨ duplicate_word a ∨ overlap_conflict cw a).
Proof.
  intros Hkeys H. unfold consistent in H.
  pose proof (consistent_lengths a) as Hlen.
  pose proof (NoDup_values_duplicate_word a Hkeys) as Hdup.
  pose proof (length_remove_dups_NoDup a.*2) as Hrd.
  destruct (forallb _ a); simpl in H.
  - destruct (decide (length a.*2 ≠ length (remove_dups a.*2))) as [Hne|Heq].
    + injection H as <-. split; [|done]. intros _. right; left.
      apply Hdup. intros Hnd. apply Hne. by apply Hrd.
    + apply dec_stable in Heq. apply Hrd in Heq.
      apply consistent_overlaps_Ok in H. rewrite H. split.
      * intros (x & wx & Hx & y & wy & i & j & Hy & Hget & Ho & Hne).
        right; right. exists x, y, wx, wy, i, j.
        split_and!; [done|by apply assignment_get_elem_of|done..].
      * intros [Ha|[Hb|Hc]].
        -- apply Hlen in Ha. done.
        -- by apply Hdup in Hb.
        -- destruct Hc as (x & y & wx & wy & i & j & Hx & Hy & Hnb & Ho & Hne).
           exists x, wx. split; [done|]. exists y, wy, i, j.
           split_and!; [done|by apply elem_of_assignment_get|done..].
  - injection H as <-. split; [|done]. intros _. left. by apply Hlen.
Qed.

Lemma consistent_total a :
  overlaps_in_range cw → ∃ b, consistent cw a = Ok b.
Proof.
  intros Hrange. unfold consistent.
  pose proof (consistent_lengths a) as Hlen.
  destruct (forallb _ a); simpl; [|eauto].
  destruct (decide (length a.*2 ≠ length (remove_dups a.*2))); [eauto|].
  assert (∀ v w, (v, w) ∈ a → String.length w = var_length v) as Hlens.
  { intros v w Hvw. destruct (decide (String.length w = var_length v)); [done|].
    assert (true = false); [|done]. apply Hlen. by exists v, w. }
  apply consistent_overlaps_total. intros x wx Hx.
  apply consistent_neighbors_total.
  - intros y wy i j Hy Hget Ho. destruct (Hrange _ _ _ _ Ho) as [Hi Hj].
    rewrite (Hlens x wx Hx), (Hlens y wy) by (by apply assignment_get_elem_of). done.
  - intros y (_ & _ & ij & ->)%elem_of_neighbors. eauto.
Qed.

End consistent_facts.

(** C5. On a puzzle whose overlap indices lie within the slots, the
    consistency check returns for every assignment, partial or complete,
    and it returns [False] iff (a) some assigned word has not the length
    of its slot, or (b) two assigned slots carry the same word, or (c) two
    assigned neighbouring slots disagree on the letter of their overlap.
    Only assigned slots occur in the three conditions. *)
Theorem consistent_correct (cw : Crossword) (a : Assignment) :
  NoDup a.*1 →
  overlaps_in_range cw →
  ∃ b, consistent cw a = Ok b
    ∧ (b = false ↔ length_mismatch a ∨ duplicate_word a ∨ overlap_conflict cw a).
Proof.
  intros Hkeys Hrange. destruct (consistent_total cw a Hrange) as [b Hb].
  exists b. split; [done|]. by apply consistent_Ok.
Qed.

Module CrossingFacts.
Import Crossing.

Lemma puzzle_lookup dictionary x y i j :
  overlaps (puzzle dictionary) !! (x, y) = Some (Some (i, j)) →
  (x = across ∧ y = down ∧ i = 1 ∧ j = 0)
  ∨ (x = down ∧ y = across ∧ i = 0 ∧ j = 1).
Proof.
  unfold puzzle. simpl. intros H.
  apply lookup_insert_Some in H as [[[= <- <-] [= <- <-]]|[_ H]]; [by left|].
  apply lookup_insert_Some in H as [[[= <- <-] [= <- <-]]|[_ H]]; [by right|].
  by rewrite lookup_empty in H.
Qed.

Lemma puzzle_in_range dictionary : overlaps_in_range (puzzle dictionary).
Proof.
  intros x y i j [(-> & -> & -> & ->)|(-> & -> & -> & ->)]%puzzle_lookup;
    simpl; lia.
Qed.

Lemma puzzle_symmetric dictionary : overlaps_symmetric (puzzle dictionary).
Proof.
  intros x y i j _ _ [(-> & -> & -> & ->)|(-> & -> & -> & ->)]%puzzle_lookup;
    reflexivity.
Qed.
End CrossingFacts.

Lemma consistent_correct_witness :
  ∃ b, consistent (Crossing.puzzle [])
         [(Crossing.across, "CAT"); (Crossing.down, "CAT")] = Ok b
    ∧ (b = false ↔
       length_mismatch [(Crossing.across, "CAT"); (Crossing.down, "CAT")]
       ∨ duplicate_word [(Crossing.across, "CAT"); (Crossing.down, "CAT")]
       ∨ overlap_conflict (Crossing.puzzle [])
           [(Crossing.across, "CAT"); (Crossing.down, "CAT")]).
Proof.
  apply (consistent_correct (Crossing.puzzle [])
           [(Crossing.across, "CAT"); (Crossing.down, "CAT")]).
  - apply (bool_decide_unpack _). vm_compute. exact I.
  - apply CrossingFacts.puzzle_in_range.
Defined.

Lemma ac3_arc_consistent_witness :
  ∃ i j,
    overlaps (Crossing.puzzle ["CAT"; "ART"; "TO"]) !! (Crossing.across, Crossing.down)
      = Some (Some (i, j))
    ∧ ∀ dx wx, Crossing.store ["CAT"] ["ART"] !! Crossing.across = Some dx → wx ∈ dx →
        ∃ dy wy c, Crossing.store ["CAT"] ["ART"] !! Crossing.down = Some dy ∧ wy ∈ dy
          ∧ String.get i wx = Some c ∧ String.get j wy = Some c.
Proof.
  apply (ac3_arc_consistent (Crossing.puzzle ["CAT"; "ART"; "TO"])
           (enforce_node_consistency (init_domains (Crossing.puzzle ["CAT"; "ART"; "TO"])))
           (Crossing.store ["CAT"] ["ART"])).
  - apply CrossingFacts.puzzle_symmetric.
  - vm_compute. reflexivity.
  - apply (bool_decide_unpack _). vm_compute. exact I.
  - apply (bool_decide_unpack _). vm_compute. exact I.
Defined.

(** ** Variable selection (C8) *)

Section select_facts.
Context (cw : Crossword).

Lemma mapM_Ok {A B} (f : A → result B) (l : list A) (k : list B) :
  mapM f l = Ok k ↔ Forall2 (λ x y, f x = Ok y) l k.
Proof.
  revert k. induction l as [|x l IH]; intros k; simpl.
  - split; [intros [= <-]; constructor|by intros ->%Forall2_nil_inv_l].
  - split.
    + intros (y & Hy & H)%bind_Ok. apply bind_Ok in H as (k' & Hk' & [= <-]).
      constructor; [done|by apply IH].
    + intros (y & k' & Hy & Hk' & ->)%Forall2_cons_inv_l.
      rewrite Hy. simpl. apply IH in Hk'. by rewrite Hk'.
Qed.

Lemma mapM_total {A B} (f : A → result B) (l : list A) :
  (∀ x, x ∈ l → ∃ y, f x = Ok y) → ∃ k, mapM f l = Ok k.
Proof.
  intros Hf. induction l as [|x l IH]; simpl; [by eexists|].
  destruct (Hf x) as [y ->]; [left|]. simpl.
  destruct IH as [k ->]; [intros z Hz; apply Hf; by right|]. simpl. by eexists.
Qed.

Lemma key_lt_true k1 k2 : key_lt k1 k2 = true ↔ key_less k1 k2.
Proof.
  unfold key_lt, key_less.
  rewrite orb_true_iff, andb_true_iff, !bool_decide_eq_true. done.
Qed.

Lemma key_lt_false k1 k2 : key_lt k1 k2 = false ↔ ¬ key_less k1 k2.
Proof. rewrite <-key_lt_true. by destruct (key_lt k1 k2). Qed.

(** [min] returns the first element whose key is the smallest: the keys
    before it are larger, the keys after it are not smaller. *)
Lemma min_loop_first {A} (l p s : list (A * (nat * Z))) best kbest :
  (∀ y ky, (y, ky) ∈ p → key_less kbest ky) →
  (∀ y ky, (y, ky) ∈ s → ¬ key_less ky kbest) →
  ∃ l1 x k l2,
    p ++ (best, kbest) :: s ++ l = l1 ++ (x, k) :: l2
    ∧ min_loop best kbest l = x
    ∧ (∀ y ky, (y, ky) ∈ l1 → key_less k ky)
    ∧ (∀ y ky, (y, ky) ∈ l2 → ¬ key_less ky k).
Proof.
  revert p s best kbest.
  induction l as [|[z kz] l IH]; intros p s best kbest Hp Hs; simpl.
  - exists p, best, kbest, s. by rewrite app_nil_r.
  - destruct (key_lt kz kbest) eqn:Hlt.
    + apply key_lt_true in Hlt.
      destruct (IH (p ++ (best, kbest) :: s) [] z kz) as (l1 & x & k & l2 & Heq & H).
      * intros y ky [Hy|[[= -> ->]|Hy]%elem_of_cons]%elem_of_app; [|done|].
        -- apply Hp in Hy. unfold key_less in *. lia.
        -- apply Hs in Hy. unfold key_less in *. lia.
      * by intros y ky ?%elem_of_nil.
      * exists l1, x, k, l2. split; [|done]. rewrite <-Heq. by rewrite <-app_assoc.
    + apply key_lt_false in Hlt.
      destruct (IH p (s ++ [(z, kz)]) best kbest) as (l1 & x & k & l2 & Heq & H).
      * done.
      * intros y ky [Hy|[= -> ->]%list_elem_of_singleton]%elem_of_app; [by eapply Hs|done].
      * exists l1, x, k, l2. split; [|done]. rewrite <-Heq. by rewrite <-app_assoc.
Qed.

Lemma min_by_key_first {A} (l : list (A * (nat * Z))) x :
  min_by_key l = Ok x →
  ∃ l1 k l2, l = l1 ++ (x, k) :: l2
    ∧ (∀ y ky, (y, ky) ∈ l1 → key_less k ky)
    ∧ (∀ y ky, (y, ky) ∈ l2 → ¬ key_less ky k).
Proof.
  destruct l as [|[best kbest] l]; simpl; [done|]. intros [= <-].
  destruct (min_loop_first l [] [] best kbest) as (l1 & x & k & l2 & Heq & <- & H);
    [by intros ?? ?%elem_of_nil..|].
  by exists l1, k, l2.
Qed.

Lemma select_key_Ok d v k : select_key cw d v = Ok k → k = key_of cw d v.
Proof.
  unfold select_key, key_of. intros (dv & Hdv%or_raise_Ok & [= <-])%bind_Ok.
  by rewrite lookup_total_alt, Hdv.
Qed.

Lemma elem_of_unassigned_variables a v :
  v ∈ unassigned_variables cw a ↔ v ∈ variables cw ∧ assignment_get a v = None.
Proof. unfold unassigned_variables. rewrite list_elem_of_filter. naive_solver. Qed.

(** The slot that [select_unassigned_variable] returns is the first
    unassigned slot, in the iteration order of the slot set, whose key
    is the smallest. *)
Lemma select_unassigned_variable_first d a var :
  select_unassigned_variable cw d a = Ok var →
  ∃ l1 l2, unassigned_variables cw a = l1 ++ var :: l2
    ∧ (∀ v, v ∈ l1 → key_less (key_of cw d var) (key_of cw d v))
    ∧ (∀ v, v ∈ l2 → ¬ key_less (key_of cw d v) (key_of cw d var)).
Proof.
  unfold select_unassigned_variable. intros (keys & Hkeys%mapM_Ok & Hmin)%bind_Ok.
  apply min_by_key_first in Hmin as (l1 & k & l2 & Heq & H1 & H2).
  assert (∀ v kv, (v, kv) ∈ zip (unassigned_variables cw a) keys → kv = key_of cw d v)
    as Hkey.
  { intros v kv Hin. apply list_elem_of_lookup in Hin as [n Hn].
    apply lookup_zip_with_Some in Hn as (v' & kv' & [= <- <-] & Hv & Hk).
    apply select_key_Ok. by eapply (Forall2_lookup_lr _ _ _ _ _ _ Hkeys). }
  exists l1.*1, l2.*1. split_and!.
  - rewrite <-(fst_zip (unassigned_variables cw a) keys)
      by (by erewrite Forall2_length).
    by rewrite Heq, fmap_app.
  - intros v ([v' kv] & -> & Hin)%list_elem_of_fmap. simpl.
    rewrite <-(Hkey var k), <-(Hkey v' kv); [by eapply H1|..];
      rewrite Heq; set_solver.
  - intros v ([v' kv] & -> & Hin)%list_elem_of_fmap. simpl.
    rewrite <-(Hkey var k), <-(Hkey v' kv); [by eapply H2|..];
      rewrite Heq; set_solver.
Qed.

Lemma select_unassigned_variable_total d a :
  unassigned_variables cw a ≠ [] →
  (∀ v, v ∈ unassigned_variables cw a → is_Some (d !! v)) →
  ∃ var, select_unassigned_variable cw d a = Ok var.
Proof.
  intros Hne Hdom. unfold select_unassigned_variable.
  destruct (mapM_total (select_key cw d) (unassigned_variables cw a)) as [keys Hkeys].
  { intros v [dv Hdv]%Hdom. unfold select_key, getdomain. rewrite Hdv. by eexists. }
  rewrite Hkeys. simpl. apply mapM_Ok, Forall2_length in Hkeys.
  destruct (unassigned_variables cw a) as [|v l]; [done|].
  destruct keys as [|k keys]; [done|]. simpl. by eexists.
Qed.

(** An unassigned slot comes back, and its key is the smallest among the
    unassigned slots. *)
Lemma select_unassigned_variable_minimal (d : Domains) (a : Assignment) :
  (∃ v, v ∈ variables cw ∧ assignment_get a v = None) →
  (∀ v, v ∈ variables cw → assignment_get a v = None → is_Some (d !! v)) →
  ∃ var, select_unassigned_variable cw d a = Ok var
    ∧ var ∈ variables cw ∧ assignment_get a var = None
    ∧ ∀ v, v ∈ variables cw → assignment_get a v = None →
        ¬ key_less (key_of cw d v) (key_of cw d var).
Proof.
  intros (v0 & Hv0) Hdom.
  destruct (select_unassigned_variable_total d a) as [var Hvar].
  { intros Hnil. apply elem_of_unassigned_variables in Hv0.
    rewrite Hnil in Hv0. by apply elem_of_nil in Hv0. }
  { intros v [? ?]%elem_of_unassigned_variables. by apply Hdom. }
  exists var. split; [done|].
  apply select_unassigned_variable_first in Hvar as (l1 & l2 & Heq & H1 & H2).
  assert (var ∈ unassigned_variables cw a) as [? ?]%elem_of_unassigned_variables
    by (rewrite Heq; set_solver).
  split_and!; [done..|]. intros v Hv Hna.
  assert (v ∈ unassigned_variables cw a) as Hin
    by by apply elem_of_unassigned_variables.
  rewrite Heq in Hin.
  apply elem_of_app in Hin as [Hin|[->|Hin]%elem_of_cons].
  - apply H1 in Hin. unfold key_less in *. lia.
  - unfold key_less. lia.
  - by apply H2.
Qed.

End select_facts.

(** C8. If some slot is unassigned and the store has a domain for every
    unassigned slot, [select_unassigned_variable] returns an unassigned
    slot; no unassigned slot has a smaller domain, and no unassigned slot
    with a domain of that size has more neighbours. *)
Theorem select_unassigned_variable_correct (cw : Crossword) (d : Domains)
    (a : Assignment) :
  (∃ v, v ∈ variables cw ∧ assignment_get a v = None) →
  (∀ v, v ∈ variables cw → assignment_get a v = None → is_Some (d !! v)) →
  ∃ var, select_unassigned_variable cw d a = Ok var
    ∧ var ∈ variables cw ∧ assignment_get a var = None
    ∧ ∀ v, v ∈ variables cw → assignment_get a v = None →
        length (d !!! var) ≤ length (d !!! v)
        ∧ (length (d !!! v) = length (d !!! var) →
           length (neighbors cw v) ≤ length (neighbors cw var)).
Proof.
  intros Hex Hdom.
  destruct (select_unassigned_variable_minimal cw d a Hex Hdom)
    as (var & Hvar & Hin & Hget & Hmin).
  exists var. split_and!; [done..|]. intros v Hv Hna.
  specialize (Hmin v Hv Hna). unfold key_less, key_of in Hmin. simpl in Hmin. lia.
Qed.

Lemma select_unassigned_variable_correct_witness :
  ∃ var, select_unassigned_variable (Crossing.puzzle [])
           (Crossing.store ["CAT"; "CAR"] ["ART"]) [] = Ok var
    ∧ var ∈ variables (Crossing.puzzle []) ∧ assignment_get [] var = None
    ∧ ∀ v, v ∈ variables (Crossing.puzzle []) → assignment_get [] v = None →
        length (Crossing.store ["CAT"; "CAR"] ["ART"] !!! var)
          ≤ length (Crossing.store ["CAT"; "CAR"] ["ART"] !!! v)
        ∧ (length (Crossing.store ["CAT"; "CAR"] ["ART"] !!! v)
             = length (Crossing.store ["CAT"; "CAR"] ["ART"] !!! var) →
           length (neighbors (Crossing.puzzle []) v)
             ≤ length (neighbors (Crossing.puzzle []) var)).
Proof.
  apply (select_unassigned_variable_correct (Crossing.puzzle [])
           (Crossing.store ["CAT"; "CAR"] ["ART"]) []).
  - exists Crossing.across. split; [left|reflexivity].
  - intros v Hv _. simpl in Hv.
    repeat (apply elem_of_cons in Hv as [->|Hv]; [vm_compute; eauto|]).
    by apply elem_of_nil in Hv.
Defined.

(** ** The backtracking search (C1) *)

Section backtrack_facts.
Context (cw : Crossword).

Lemma assignment_set_fresh (a : Assignment) v w :
  assignment_get a v = None → assignment_set a v w = a ++ [(v, w)].
Proof.
  induction a as [|[k w'] a IH]; simpl; [done|].
  destruct (decide (k = v)); [done|]. intros H. by rewrite IH.
Qed.

Lemma backtrack_values_Some rec a var values r :
  backtrack_values cw rec a var values = Ok (Some r) →
  ∃ value, value ∈ values
    ∧ consistent cw (assignment_set a var value) = Ok true
    ∧ rec (assignment_set a var value) = Ok (Some r).
Proof.
  induction values as [|value values IH]; simpl; [done|].
  intros (ok & Hok & H)%bind_Ok.
  assert (backtrack_values cw rec a var values = Ok (Some r) →
          ∃ value0, value0 ∈ value :: values
            ∧ consistent cw (assignment_set a var value0) = Ok true
            ∧ rec (assignment_set a var value0) = Ok (Some r)) as Hrest.
  { intros (v & Hv & Hc)%IH. exists v. split; [by right|done]. }
  destruct ok; [|by apply Hrest].
  apply bind_Ok in H as ([r'|] & Hrec & H); [|by apply Hrest].
  injection H as <-. exists value. split; [left|done].
Qed.

Lemma backtrack_visited fuel d a r :
  visited cw a → backtrack cw fuel d a = Ok (Some r) →
  visited cw r ∧ length r = length (variables cw).
Proof.
  revert a. induction fuel as [|fuel IH]; intros a Ha H; [done|]. simpl in H.
  unfold assignment_complete in H. case_bool_decide as Hlen; [by injection H as <-|].
  apply bind_Ok in H as (var & Hvar & H).
  apply bind_Ok in H as (values & _ & H).
  apply backtrack_values_Some in H as (value & _ & Hcons & Hrec).
  apply select_unassigned_variable_first in Hvar as (l1 & l2 & Heq & _).
  assert (var ∈ unassigned_variables cw a) as [Hv Hget]%elem_of_unassigned_variables
    by (rewrite Heq; set_solver).
  rewrite assignment_set_fresh in Hcons, Hrec by done.
  eapply IH; [|exact Hrec]. destruct Ha as (Hnd & Hsub & _).
  split_and!; [| |done].
  - rewrite fmap_app. simpl. apply NoDup_app. split_and!; [done| |apply NoDup_singleton].
    intros v Hin Hs%list_elem_of_singleton. subst v. by apply assignment_get_None in Hget.
  - rewrite fmap_app. simpl.
    intros v [?|Hs%list_elem_of_singleton]%elem_of_app; [auto|by subst v].
Qed.

Lemma visited_complete_valid a :
  NoDup (variables cw) → visited cw a → length a = length (variables cw) →
  valid_solution cw a.
Proof.
  intros Hvars (Hnd & Hsub & Hcons) Hlen.
  pose proof (consistent_Ok cw a true Hnd Hcons) as Hiff.
  assert (¬ (length_mismatch a ∨ duplicate_word a ∨ overlap_conflict cw a)) as Hno.
  { intros H. by apply Hiff in H. }
  assert (a.*1 ≡ₚ variables cw) as Hperm.
  { apply submseteq_length_Permutation; [by apply NoDup_submseteq|].
    by rewrite length_fmap, Hlen. }
  split_and!; [done| | | |].
  - intros v. by rewrite Hperm.
  - apply dec_stable. intros Hdup%NoDup_values_duplicate_word; [|done]. tauto.
  - intros v w Hvw. apply dec_stable. intros Hne. apply Hno. left. by exists v, w.
  - intros x y wx wy Hx Hy Hnb.
    pose proof Hnb as (_ & _ & [i j] & Ho)%elem_of_neighbors.
    exists i, j. split; [done|]. apply dec_stable. intros Hne. apply Hno.
    right; right. by exists x, y, wx, wy, i, j.
Qed.

Lemma solve_run_Ok d res d' :
  (solve_run cw d).2 = Ok (res, d') →
  ∃ ok, ac3 cw (enforce_node_consistency d) None = Ok (ok, d')
    ∧ backtrack cw (backtrack_fuel cw []) d' [] = Ok res.
Proof.
  unfold solve_run. destruct (ac3 _ _ _) as [[ok d2]| |]; simpl; [|done..].
  intros (res' & Hb & [= <- <-])%bind_Ok. by exists ok.
Qed.

Lemma solve_Ok d res :
  solve cw d = Ok res ↔ ∃ d', (solve_run cw d).2 = Ok (res, d').
Proof.
  unfold solve. destruct (solve_run cw d).2 as [[res' d']| |]; simpl.
  - split; [intros [= <-]; eauto|]. by intros (? & [= <- _]).
  - split; [done|by intros [? ?]].
  - split; [done|by intros [? ?]].
Qed.

End backtrack_facts.

(** C1. An assignment returned by [solve] is complete (every slot of the
    puzzle has exactly one word), its words are pairwise distinct, every
    word has the length of its slot, and neighbouring slots carry the same
    letter at their overlap. *)
Theorem solve_valid (cw : Crossword) (d : Domains) (a : Assignment) :
  NoDup (variables cw) →
  solve cw d = Ok (Some a) →
  valid_solution cw a.
Proof.
  intros Hvars (d' & (ok & _ & Hb)%solve_run_Ok)%solve_Ok.
  apply backtrack_visited in Hb as [Hvis Hlen].
  - by apply visited_complete_valid.
  - split_and!; [constructor|by intros v ?%elem_of_nil|reflexivity].
Qed.

Lemma solve_valid_witness :
  valid_solution (Crossing.puzzle ["CAT"; "ART"; "TO"])
    [(Crossing.across, "CAT"); (Crossing.down, "ART")].
Proof.
  apply (solve_valid (Crossing.puzzle ["CAT"; "ART"; "TO"])
           (init_domains (Crossing.puzzle ["CAT"; "ART"; "TO"]))).
  - apply (bool_decide_unpack _). vm_compute. exact I.
  - vm_compute. reflexivity.
Defined.

(** ** The pipeline after a failure of AC-3 (C2) *)

Section solve_facts.
Context (cw : Crossword).

Lemma init_domains_covers : covers cw (init_domains cw).
Proof.
  intros v Hv. unfold init_domains. apply elem_of_dom.
  rewrite dom_list_to_map_L, <-list_fmap_compose. simpl.
  apply elem_of_list_to_set, list_elem_of_fmap. by exists v.
Qed.

Lemma enforce_node_consistency_covers d :
  covers cw d → covers cw (enforce_node_consistency d).
Proof.
  intros Hd v [dv Hv]%Hd. rewrite enforce_node_consistency_lookup, Hv. by eexists.
Qed.

Lemma ac3_covers d arcs ok d' :
  covers cw d → ac3 cw d arcs = Ok (ok, d') → covers cw d'.
Proof.
  intros Hd H. eapply (ac3_loop_preserves cw (covers cw)); [|done|done].
  intros x y d0 revised d1 Hd0 Hr v Hv. apply elem_of_dom.
  rewrite (revise_dom _ _ _ _ _ _ Hr). by apply elem_of_dom, Hd0.
Qed.

(** When the loop of [ac3] returns [False], the slot whose domain it
    found empty is a slot of the puzzle. *)
Lemma ac3_loop_false fuel queue d d' :
  (∀ a, a ∈ queue → a.1 ∈ variables cw) →
  ac3_loop cw fuel queue d = Ok (false, d') →
  ∃ x, x ∈ variables cw ∧ d' !! x = Some [].
Proof.
  revert queue d. induction fuel as [|fuel IH]; intros queue d Hq H; [done|].
  simpl in H. destruct queue as [|[x y] queue]; [done|].
  apply bind_Ok in H as ([revised d1] & Hr & H).
  assert (x ∈ variables cw) as Hx by (apply (Hq (x, y)); left).
  destruct revised.
  - apply bind_Ok in H as (dx & Hdx%or_raise_Ok & H).
    destruct (decide (length dx = 0)) as [Hlen|_].
    + injection H as <-. exists x. split; [done|].
      by apply nil_length_inv in Hlen as ->.
    + eapply IH; [|done].
      intros a [Ha|Ha]%elem_of_app; [apply Hq; by right|].
      apply list_elem_of_fmap in Ha as (z & -> & [Hz _]%list_elem_of_difference).
      by apply elem_of_neighbors in Hz as [? _].
  - eapply IH; [|done]. intros a Ha. apply Hq. by right.
Qed.

Lemma ac3_false d d' :
  ac3 cw d None = Ok (false, d') → ∃ x, x ∈ variables cw ∧ d' !! x = Some [].
Proof.
  apply ac3_loop_false. intros a Ha%elem_of_all_arcs. by destruct Ha.
Qed.

(** With an empty domain in the store, the search gives up at its first
    step: the slot it selects has no candidate. *)
Lemma backtrack_empty_domain fuel d x :
  covers cw d → x ∈ variables cw → d !! x = Some [] →
  backtrack cw (S fuel) d [] = Ok None.
Proof.
  intros Hd Hx Hdx. simpl. unfold assignment_complete.
  rewrite bool_decide_eq_false_2.
  2:{ simpl. intros Hlen. symmetry in Hlen. apply nil_length_inv in Hlen.
      rewrite Hlen in Hx. by apply elem_of_nil in Hx. }
  destruct (select_unassigned_variable_minimal cw d [])
    as (var & -> & Hvar & _ & Hmin); [by exists x|by intros v ? _; apply Hd|].
  simpl. specialize (Hmin x Hx eq_refl).
  destruct (Hd var Hvar) as [dvar Hdvar].
  unfold key_less, key_of in Hmin. simpl in Hmin.
  rewrite !lookup_total_alt, Hdx, Hdvar in Hmin. simpl in Hmin.
  assert (dvar = []) as -> by (apply nil_length_inv; lia).
  unfold order_domain_values, getdomain. rewrite Hdvar. done.
Qed.

End solve_facts.

(** C2, as the code has it.  [solve] runs node consistency, then AC-3 over
    all arcs, then the search from the empty assignment, whatever AC-3 has
    returned.  If AC-3 has returned [False] on a store that has a domain
    for every slot, the search returns no solution, and so does [solve]. *)
Theorem solve_after_ac3_failure (cw : Crossword) (d d2 : Domains) :
  covers cw d →
  ac3 cw (enforce_node_consistency d) None = Ok (false, d2) →
  (solve_run cw d).1 = [Call_enforce_node_consistency; Call_ac3; Call_backtrack]
  ∧ solve cw d = Ok None.
Proof.
  intros Hd Hac3. unfold solve, solve_run, backtrack_fuel. rewrite Hac3.
  split; [done|]. cbn [snd].
  destruct (ac3_false cw _ _ Hac3) as (x & Hx & Hdx).
  rewrite (backtrack_empty_domain cw _ d2 x); [done| |done..].
  eapply ac3_covers; [|done]. by apply enforce_node_consistency_covers.
Qed.

Lemma solve_after_ac3_failure_witness :
  (solve_run (Crossing.puzzle ["CAT"; "DOG"])
     (init_domains (Crossing.puzzle ["CAT"; "DOG"]))).1
    = [Call_enforce_node_consistency; Call_ac3; Call_backtrack]
  ∧ solve (Crossing.puzzle ["CAT"; "DOG"])
      (init_domains (Crossing.puzzle ["CAT"; "DOG"])) = Ok None.
Proof.
  apply (solve_after_ac3_failure (Crossing.puzzle ["CAT"; "DOG"])
           (init_domains (Crossing.puzzle ["CAT"; "DOG"]))
           (Crossing.store [] ["CAT"; "DOG"])).
  - apply init_domains_covers.
  - vm_compute. reflexivity.
Defined.

(** The claim C2 as the spec has it fails: on the crossing puzzle with the
    dictionary CAT, DOG, AC-3 returns [False] and the search is invoked
    all the same. *)
Lemma solve_skips_backtrack_counterexample :
  ¬ (∀ (cw : Crossword) (d d2 : Domains),
       ac3 cw (enforce_node_consistency d) None = Ok (false, d2) →
       solve cw d = Ok None ∧ Call_backtrack ∉ (solve_run cw d).1).
Proof.
  intros H.
  destruct (H (Crossing.puzzle ["CAT"; "DOG"])
              (init_domains (Crossing.puzzle ["CAT"; "DOG"]))
              (Crossing.store [] ["CAT"; "DOG"])) as [_ Hnot].
  - vm_compute. reflexivity.
  - apply Hnot. vm_compute. do 2 right. left.
Qed.

(** ** Search order and iteration order (C9) *)

Section sorted_facts.
Context {A : Type}.

Lemma sorted_insert_Permutation (k : nat) (x : A) l :
  sorted_insert k x l ≡ₚ (k, x) :: l.
Proof.
  induction l as [|[k' x'] l IH]; simpl; [done|].
  destruct (decide (k ≤ k')); [done|]. rewrite IH. apply Permutation_swap.
Qed.

Lemma sorted_insert_StronglySorted (k : nat) (x : A) l :
  StronglySorted key_le l → StronglySorted key_le (sorted_insert k x l).
Proof.
  induction 1 as [|[k' x'] l Hl IH Hall]; simpl.
  - repeat constructor.
  - destruct (decide (k ≤ k')) as [Hle|Hgt].
    + constructor; [by constructor|]. constructor; [done|].
      eapply Forall_impl; [done|]. unfold key_le. simpl. intros ??. lia.
    + constructor; [done|]. rewrite sorted_insert_Permutation.
      constructor; [|done]. unfold key_le. simpl. lia.
Qed.

(** Insertion puts the new element before the elements of the same key. *)
Lemma sorted_insert_filter (k0 k : nat) (x : A) l :
  filter (λ p, p.1 = k0) (sorted_insert k x l) = filter (λ p, p.1 = k0) ((k, x) :: l).
Proof.
  induction l as [|[k' x'] l IH]; simpl; [done|].
  destruct (decide (k ≤ k')) as [Hle|Hgt]; [done|].
  rewrite (filter_cons _ (k', x')), IH, !filter_cons. simpl.
  destruct (decide (k' = k0)), (decide (k = k0)); try done. lia.
Qed.

Lemma sorted_pairs_spec (l : list (nat * A)) :
  let out := foldr (λ kx acc, sorted_insert kx.1 kx.2 acc) [] l in
  out ≡ₚ l ∧ StronglySorted key_le out
  ∧ ∀ k, filter (λ p, p.1 = k) out = filter (λ p, p.1 = k) l.
Proof.
  induction l as [|[k x] l (IH1 & IH2 & IH3)]; simpl.
  - split_and!; [done|constructor|done].
  - split_and!.
    + by rewrite sorted_insert_Permutation, IH1.
    + by apply sorted_insert_StronglySorted.
    + intros k0. by rewrite sorted_insert_filter, !filter_cons, IH3.
Qed.

End sorted_facts.

(** The claim C9 as the spec has it fails: with one slot of length 3 and
    the dictionary CAT, DOG, the result is the word that comes first in
    the iteration order of the dictionary. *)
Lemma generate_order_counterexample :
  ¬ (∀ cw1 cw2 : Crossword, same_puzzle cw1 cw2 → generate cw1 = generate cw2).
Proof.
  intros H.
  specialize (H (OneSlot.puzzle ["CAT"; "DOG"]) (OneSlot.puzzle ["DOG"; "CAT"])).
  assert (generate (OneSlot.puzzle ["CAT"; "DOG"])
          = Ok (Some [(OneSlot.slot, "CAT")])) as H1 by (vm_compute; reflexivity).
  assert (generate (OneSlot.puzzle ["DOG"; "CAT"])
          = Ok (Some [(OneSlot.slot, "DOG")])) as H2 by (vm_compute; reflexivity).
  rewrite H1, H2 in H. discriminate H.
  split_and!; [done|apply Permutation_swap|done].
Qed.

(** One step of the search on a store given with its iteration order.
    The slot selected is the first unassigned slot, in the iteration order
    of the slot set, whose key (domain size, then minus the degree) is the
    smallest.  The values are the words of its domain, each with its
    conflict count, sorted by count, words of equal count staying in the
    iteration order of the domain. *)
Lemma search_step_order (cw : Crossword) (d : Domains) (a : Assignment)
    (var : Var) (values : list string) :
  select_unassigned_variable cw d a = Ok var →
  order_domain_values cw d var a = Ok values →
  (∃ l1 l2, unassigned_variables cw a = l1 ++ var :: l2
     ∧ (∀ v, v ∈ l1 → key_less (key_of cw d var) (key_of cw d v))
     ∧ (∀ v, v ∈ l2 → ¬ key_less (key_of cw d v) (key_of cw d var)))
  ∧ ∃ keys out,
      Forall2 (λ w k, conflicts_count cw d a var w = Ok k) (d !!! var) keys
      ∧ values = out.*2
      ∧ out ≡ₚ zip keys (d !!! var)
      ∧ StronglySorted key_le out
      ∧ ∀ k, filter (λ p, p.1 = k) out = filter (λ p, p.1 = k) (zip keys (d !!! var)).
Proof.
  intros Hsel Hord. split; [by apply select_unassigned_variable_first|].
  unfold order_domain_values in Hord.
  apply bind_Ok in Hord as (dvar & Hdvar%or_raise_Ok & Hord).
  apply bind_Ok in Hord as (keys & Hkeys%mapM_Ok & [= <-]).
  rewrite lookup_total_alt, Hdvar. simpl.
  exists keys, (foldr (λ kx acc, sorted_insert kx.1 kx.2 acc) [] (zip keys dvar)).
  split; [done|]. split; [done|]. apply sorted_pairs_spec.
Qed.

(** ** Termination of the search *)

Section backtrack_termination.
Context (cw : Crossword).

Lemma mapM_not_Diverge {A B} (f : A → result B) (l : list A) :
  (∀ x, f x ≠ Diverge) → mapM f l ≠ Diverge.
Proof.
  intros Hf. induction l as [|x l IH]; simpl; [done|].
  apply bind_not_Diverge; [done|]. intros y _.
  apply bind_not_Diverge; [done|]. done.
Qed.

Lemma consistent_neighbors_not_Diverge a var word nbs :
  consistent_neighbors cw a var word nbs ≠ Diverge.
Proof.
  induction nbs as [|nb nbs IH]; simpl; [done|].
  destruct (assignment_get a nb); [|done].
  apply bind_not_Diverge; [apply or_raise_not_Diverge|]. intros [[i j]|] _; [|done].
  apply bind_not_Diverge; [apply or_raise_not_Diverge|]. intros c1 _.
  apply bind_not_Diverge; [apply or_raise_not_Diverge|]. intros c2 _.
  by destruct (decide (c1 ≠ c2)).
Qed.

Lemma consistent_not_Diverge a : consistent cw a ≠ Diverge.
Proof.
  unfold consistent. destruct (negb _); [done|]. destruct (decide _); [done|].
  generalize a at 2. intros items. induction items as [|[var word] items IH]; simpl; [done|].
  apply bind_not_Diverge; [apply consistent_neighbors_not_Diverge|]. by intros [|] _.
Qed.

Lemma conflicts_words_not_Diverge val i j nb_vals count :
  conflicts_words val i j nb_vals count ≠ Diverge.
Proof.
  revert count. induction nb_vals as [|nb_val nb_vals IH]; intros count; simpl; [done|].
  apply bind_not_Diverge; [apply or_raise_not_Diverge|]. intros c1 _.
  apply bind_not_Diverge; [apply or_raise_not_Diverge|]. intros c2 _. apply IH.
Qed.

Lemma conflicts_count_not_Diverge d a var val :
  conflicts_count cw d a var val ≠ Diverge.
Proof.
  unfold conflicts_count. generalize 0.
  induction (neighbors cw var) as [|nb nbs IH]; intros count; simpl; [done|].
  destruct (assignment_get a nb); [apply IH|].
  apply bind_not_Diverge; [apply or_raise_not_Diverge|]. intros [[i j]|] _; [|apply IH].
  apply bind_not_Diverge; [apply or_raise_not_Diverge|]. intros dnb _.
  apply bind_not_Diverge; [apply conflicts_words_not_Diverge|]. intros count' _. apply IH.
Qed.

Lemma order_domain_values_not_Diverge d var a :
  order_domain_values cw d var a ≠ Diverge.
Proof.
  unfold order_domain_values.
  apply bind_not_Diverge; [apply or_raise_not_Diverge|]. intros dvar _.
  apply bind_not_Diverge; [|done].
  apply mapM_not_Diverge. intros val. apply conflicts_count_not_Diverge.
Qed.

Lemma select_unassigned_variable_not_Diverge d a :
  select_unassigned_variable cw d a ≠ Diverge.
Proof.
  unfold select_unassigned_variable.
  apply bind_not_Diverge.
  - apply mapM_not_Diverge. intros v. unfold select_key.
    apply bind_not_Diverge; [apply or_raise_not_Diverge|]. done.
  - intros keys _. by destruct (zip _ keys) as [|[??] ?].
Qed.

Lemma backtrack_values_not_Diverge rec a var values :
  (∀ value, rec (assignment_set a var value) ≠ Diverge) →
  backtrack_values cw rec a var values ≠ Diverge.
Proof.
  intros Hrec. induction values as [|value values IH]; simpl; [done|].
  apply bind_not_Diverge; [apply consistent_not_Diverge|]. intros [|] _; [|done].
  apply bind_not_Diverge; [done|]. by intros [r|] _.
Qed.

Lemma assignment_get_set (a : Assignment) v w u :
  assignment_get (assignment_set a v w) u
  = if decide (v = u) then Some w else assignment_get a u.
Proof.
  induction a as [|[k w'] a IH]; simpl.
  - by destruct (decide (v = u)).
  - destruct (decide (k = v)) as [->|Hkv]; simpl.
    + by destruct (decide (v = u)).
    + rewrite IH. destruct (decide (k = u)) as [->|]; [|done].
      by rewrite decide_False by done.
Qed.

Lemma length_filter_lt_strong {A} (P Q : A → Prop)
    `{!∀ x, Decision (P x), !∀ x, Decision (Q x)} (l : list A) x0 :
  (∀ x, Q x → P x) → x0 ∈ l → P x0 → ¬ Q x0 →
  length (filter Q l) < length (filter P l).
Proof.
  intros HQP Hin HP HQ.
  assert (∀ k : list A, length (filter Q k) ≤ length (filter P k)) as Hle.
  { induction k as [|y k IHk]; [done|]. rewrite !filter_cons.
    destruct (decide (Q y)) as [Hy|Hy].
    - rewrite decide_True by auto. simpl. lia.
    - destruct (decide (P y)); simpl; lia. }
  induction l as [|y l IH]; [by apply elem_of_nil in Hin|].
  rewrite !filter_cons. apply elem_of_cons in Hin as [<-|Hin].
  - rewrite decide_False, decide_True by done. specialize (Hle l). simpl. lia.
  - specialize (IH Hin). destruct (decide (Q y)) as [Hy|Hy].
    + rewrite decide_True by auto. simpl. lia.
    + destruct (decide (P y)); simpl; lia.
Qed.

Lemma unassigned_variables_set a var value :
  var ∈ unassigned_variables cw a →
  length (unassigned_variables cw (assignment_set a var value))
  < length (unassigned_variables cw a).
Proof.
  intros Hin. pose proof Hin as [Hvar Hget]%elem_of_unassigned_variables.
  unfold unassigned_variables.
  apply (length_filter_lt_strong _ _ _ var); [|done..|].
  - intros v. rewrite assignment_get_set. by destruct (decide (var = v)).
  - rewrite assignment_get_set. by rewrite decide_True.
Qed.

(** One unit of fuel per unassigned slot, and one more, is enough. *)
Lemma backtrack_fuel_enough fuel d a :
  length (unassigned_variables cw a) < fuel → backtrack cw fuel d a ≠ Diverge.
Proof.
  revert a. induction fuel as [|fuel IH]; intros a Hfuel; [lia|]. simpl.
  destruct (assignment_complete cw a); [done|].
  apply bind_not_Diverge; [apply select_unassigned_variable_not_Diverge|].
  intros var Hvar.
  apply bind_not_Diverge; [apply order_domain_values_not_Diverge|]. intros values _.
  apply backtrack_values_not_Diverge. intros value. apply IH.
  apply select_unassigned_variable_first in Hvar as (l1 & l2 & Heq & _).
  assert (var ∈ unassigned_variables cw a) as Hin by (rewrite Heq; set_solver).
  pose proof (unassigned_variables_set a var value Hin). lia.
Qed.

(** [solve] does not run out of fuel. *)
Lemma solve_not_Diverge d : solve cw d ≠ Diverge.
Proof.
  unfold solve, solve_run.
  pose proof (ac3_not_Diverge cw (enforce_node_consistency d) None) as Hac3.
  destruct (ac3 _ _ _) as [[ok d2]| |]; cbn [snd]; [|done..].
  pose proof (backtrack_fuel_enough (backtrack_fuel cw []) d2 []) as Hb.
  destruct (backtrack cw (backtrack_fuel cw []) d2 []); [done..|].
  destruct Hb; [|done]. unfold backtrack_fuel. lia.
Qed.

End backtrack_termination.

(** ** No exception on a well-formed puzzle *)

Section no_exception.
Context (cw : Crossword) (Hwf : well_formed cw).

Lemma revise_returns x y d :
  is_arc cw (x, y) → covers cw d → node_consistent d →
  ∃ r, revise cw x y d = Ok r.
Proof.
  intros [Hx (Hy & _ & [i j] & Ho)%elem_of_neighbors] Hd Hnc. simpl in *.
  destruct (Hd x Hx) as [dx Hdx], (Hd y Hy) as [dy Hdy].
  destruct Hwf as (_ & Hrange & _). destruct (Hrange _ _ _ _ Ho) as [Hi Hj].
  unfold revise, getoverlap, getdomain. rewrite Ho, Hdx. simpl.
  destruct (revise_loop_total d y i j dy dx) as [rem ->]; [done|..].
  - intros w Hw. apply string_get_is_Some. by rewrite (Hnc x dx w).
  - intros w Hw. apply string_get_is_Some. by rewrite (Hnc y dy w).
  - simpl. destruct rem; eauto.
Qed.

Lemma ac3_loop_no_exception fuel queue d e :
  (∀ a, a ∈ queue → is_arc cw a) → covers cw d → node_consistent d →
  ac3_loop cw fuel queue d ≠ Raise e.
Proof.
  revert queue d. induction fuel as [|fuel IH]; intros queue d Hq Hd Hnc; [done|].
  simpl. destruct queue as [|[x y] queue]; [done|].
  destruct (revise_returns x y d) as [[revised d'] Hr]; [apply Hq; left|done..|].
  rewrite Hr. simpl.
  assert (covers cw d') as Hd'.
  { intros v Hv. apply elem_of_dom. rewrite (revise_dom _ _ _ _ _ _ Hr).
    by apply elem_of_dom, Hd. }
  pose proof (revise_node_consistent cw _ _ _ _ _ Hnc Hr) as Hnc'.
  destruct revised.
  - unfold getdomain.
    destruct (Hd' x) as [dx ->]; [by destruct (Hq (x, y)); [left|]|]. simpl.
    destruct (decide (length dx = 0)); [done|]. apply IH; [|done..].
    intros a [Ha|Ha]%elem_of_app; [apply Hq; by right|].
    apply list_elem_of_fmap in Ha as (z & -> & [Hz _]%list_elem_of_difference).
    apply is_arc_sym; [apply Hwf|]. split; [|done]. by destruct (Hq (x, y)); [left|].
  - apply IH; [|done..]. intros a Ha. apply Hq. by right.
Qed.

Lemma ac3_no_exception d e :
  covers cw d → node_consistent d → ac3 cw d None ≠ Raise e.
Proof.
  intros Hd Hnc. unfold ac3. apply ac3_loop_no_exception; [|done..].
  intros a. apply elem_of_all_arcs.
Qed.

Lemma conflicts_words_returns val i j nb_vals count :
  is_Some (String.get i val) → (∀ w, w ∈ nb_vals → is_Some (String.get j w)) →
  ∃ c, conflicts_words val i j nb_vals count = Ok c.
Proof.
  intros [c1 Hc1] Hvals. revert count.
  induction nb_vals as [|nb_val nb_vals IH]; intros count; simpl; [eauto|].
  destruct (Hvals nb_val) as [c2 Hc2]; [left|].
  unfold getitem. rewrite Hc1, Hc2. simpl. apply IH.
  intros w Hw. apply Hvals. by right.
Qed.

Lemma conflicts_neighbors_returns d a var val dvar nbs count :
  covers cw d → node_consistent d → d !! var = Some dvar → val ∈ dvar →
  (∀ nb, nb ∈ nbs → nb ∈ neighbors cw var) →
  ∃ c, conflicts_neighbors cw d a var val nbs count = Ok c.
Proof.
  intros Hd Hnc Hdvar Hval. revert count.
  induction nbs as [|nb nbs IH]; intros count Hnbs; simpl; [eauto|].
  assert (∀ count, ∃ c, conflicts_neighbors cw d a var val nbs count = Ok c) as Hrest.
  { intros count'. apply IH. intros z Hz. apply Hnbs. by right. }
  destruct (assignment_get a nb); [done|].
  assert (nb ∈ neighbors cw var) as (Hnb & _ & [i j] & Ho)%elem_of_neighbors
    by (apply Hnbs; left).
  unfold getoverlap. rewrite Ho. simpl.
  destruct (Hd nb Hnb) as [dnb Hdnb]. unfold getdomain. rewrite Hdnb. simpl.
  destruct Hwf as (_ & Hrange & _). destruct (Hrange _ _ _ _ Ho) as [Hi Hj].
  destruct (conflicts_words_returns val i j dnb count) as [c ->]; [| |by simpl].
  - apply string_get_is_Some. by rewrite (Hnc var dvar val).
  - intros w Hw. apply string_get_is_Some. by rewrite (Hnc nb dnb w).
Qed.

Lemma conflicts_count_returns d a var val dvar :
  covers cw d → node_consistent d → d !! var = Some dvar → val ∈ dvar →
  ∃ c, conflicts_count cw d a var val = Ok c.
Proof. intros. by eapply conflicts_neighbors_returns. Qed.

Lemma order_domain_values_returns d var a :
  covers cw d → node_consistent d → var ∈ variables cw →
  ∃ values, order_domain_values cw d var a = Ok values.
Proof.
  intros Hd Hnc Hvar. destruct (Hd var Hvar) as [dvar Hdvar].
  unfold order_domain_values, getdomain. rewrite Hdvar. simpl.
  destruct (mapM_total (conflicts_count cw d a var) dvar) as [keys ->]; [|by eexists].
  intros val Hval. by eapply conflicts_count_returns.
Qed.

(** An assignment of slots of the puzzle that is not complete leaves a
    slot unassigned. *)
Lemma unassigned_variables_nonempty a :
  NoDup a.*1 → (∀ v, v ∈ a.*1 → v ∈ variables cw) →
  length a ≠ length (variables cw) → unassigned_variables cw a ≠ [].
Proof.
  intros Hnd Hsub Hlen Hnil. apply Hlen. destruct Hwf as (Hvars & _).
  rewrite <-(length_fmap fst a). apply Permutation_length.
  apply NoDup_Permutation; [done..|]. intros v. split; [apply Hsub|].
  intros Hv. destruct (decide (v ∈ a.*1)) as [|Hn]; [done|].
  assert (v ∈ unassigned_variables cw a) as Hin.
  { apply elem_of_unassigned_variables. split; [done|]. by apply assignment_get_None. }
  rewrite Hnil in Hin. by apply elem_of_nil in Hin.
Qed.

Lemma backtrack_values_no_exception rec a var values e :
  (∀ value, rec (assignment_set a var value) ≠ Raise e) →
  backtrack_values cw rec a var values ≠ Raise e.
Proof.
  intros Hrec. induction values as [|value values IH]; simpl; [done|].
  destruct (consistent_total cw (assignment_set a var value)) as [ok ->]; [apply Hwf|].
  simpl. destruct ok; [|done].
  specialize (Hrec value). destruct (rec _) as [[r|]| |]; simpl; congruence.
Qed.

Lemma backtrack_no_exception fuel d a e :
  covers cw d → node_consistent d →
  NoDup a.*1 → (∀ v, v ∈ a.*1 → v ∈ variables cw) →
  backtrack cw fuel d a ≠ Raise e.
Proof.
  intros Hd Hnc. revert a. induction fuel as [|fuel IH]; intros a Hnd Hsub; [done|].
  simpl. unfold assignment_complete. case_bool_decide as Hlen; [done|].
  destruct (select_unassigned_variable_total cw d a) as [var Hvar].
  { by apply unassigned_variables_nonempty. }
  { intros v [Hv _]%elem_of_unassigned_variables. by apply Hd. }
  rewrite Hvar. simpl.
  apply select_unassigned_variable_first in Hvar as (l1 & l2 & Heq & _).
  assert (var ∈ unassigned_variables cw a) as [Hv Hget]%elem_of_unassigned_variables
    by (rewrite Heq; set_solver).
  destruct (order_domain_values_returns d var a) as [values ->]; [done..|]. simpl.
  apply backtrack_values_no_exception. intros value.
  rewrite assignment_set_fresh by done. apply IH.
  - rewrite fmap_app. simpl. apply NoDup_app. split_and!; [done| |apply NoDup_singleton].
    intros v Hin Hs%list_elem_of_singleton. subst v. by apply assignment_get_None in Hget.
  - rewrite fmap_app. simpl.
    intros v [?|Hs%list_elem_of_singleton]%elem_of_app; [auto|by subst v].
Qed.

(** On a well-formed puzzle [CrosswordCreator(crossword).solve()] returns:
    an assignment or [None], never an exception, and the fuel is never
    exhausted. *)
Lemma generate_returns : ∃ res, generate cw = Ok res.
Proof.
  unfold generate.
  pose proof (solve_not_Diverge cw (init_domains cw)) as Hdiv.
  assert (∀ e, solve cw (init_domains cw) ≠ Raise e) as Hexn.
  { intros e. unfold solve, solve_run.
    pose proof (enforce_node_consistency_covers cw _ (init_domains_covers cw)) as Hd.
    pose proof (enforce_node_consistency_sound (init_domains cw)) as Hnc.
    pose proof (ac3_no_exception _ e Hd Hnc) as Hac3.
    destruct (ac3 _ _ None) as [[ok d2]|e'|] eqn:Heq; cbn [snd];
      [|simpl; intros [= ->]; by destruct Hac3|done].
    pose proof (backtrack_no_exception (backtrack_fuel cw []) d2 [] e) as Hb.
    destruct (backtrack cw (backtrack_fuel cw []) d2 []); [done| |done].
    simpl. apply Hb; [by eapply ac3_covers|by eapply ac3_node_consistent| |].
    - constructor.
    - by intros v ?%elem_of_nil. }
  destruct (solve cw (init_domains cw)) as [res|e|]; [by exists res|by destruct (Hexn e)|done].
Qed.

End no_exception.

(** * Further properties of the solver *)

(** ** Pruning never loses a solution *)

Section pruning.
Context (cw : Crossword).

Lemma valid_solution_lookup c v :
  valid_solution cw c → v ∈ variables cw → ∃ w, (v, w) ∈ c.
Proof.
  intros (_ & Hkeys & _) Hv. apply Hkeys in Hv.
  apply list_elem_of_fmap in Hv as ([v' w] & -> & Hin). by exists w.
Qed.

Lemma valid_solution_no_conflict c :
  valid_solution cw c →
  ¬ (length_mismatch c ∨ duplicate_word c ∨ overlap_conflict cw c).
Proof.
  intros (Hnd & _ & Hvals & Hlen & Hov) [Ha|[Hb|Hc]].
  - destruct Ha as (v & w & Hin & Hne). by apply Hne, Hlen.
  - by apply NoDup_values_duplicate_word in Hb.
  - destruct Hc as (x & y & wx & wy & i & j & Hx & Hy & Hnb & Ho & Hne).
    destruct (Hov x y wx wy Hx Hy Hnb) as (i' & j' & Ho' & Hag).
    rewrite Ho in Ho'. injection Ho' as <- <-. done.
Qed.

Lemma conflict_mono (a c : Assignment) :
  a ⊆ c →
  length_mismatch a ∨ duplicate_word a ∨ overlap_conflict cw a →
  length_mismatch c ∨ duplicate_word c ∨ overlap_conflict cw c.
Proof.
  intros Hsub [Ha|[Hb|Hc]].
  - left. destruct Ha as (v & w & Hin & Hne). exists v, w. auto.
  - right; left. destruct Hb as (x & y & w & Hne & Hx & Hy). exists x, y, w. auto.
  - right; right.
    destruct Hc as (x & y & wx & wy & i & j & Hx & Hy & Hrest).
    exists x, y, wx, wy, i, j. auto.
Qed.

Lemma enforce_node_consistency_within d c :
  valid_solution cw c → within d c → within (enforce_node_consistency d) c.
Proof.
  intros (_ & _ & _ & Hlen & _) Hd v w Hin.
  destruct (Hd v w Hin) as (dv & Hdv & Hw).
  destruct (enforce_node_consistency_elem_of d v dv w Hdv) as (dv' & Hdv' & Hiff).
  exists dv'. split; [done|]. apply Hiff. split; [done|]. by apply Hlen.
Qed.

Lemma revise_within x y d revised d' c :
  valid_solution cw c → within d c →
  x ∈ variables cw → y ∈ variables cw → x ≠ y →
  revise cw x y d = Ok (revised, d') → within d' c.
Proof.
  intros Hc Hd Hx Hy Hne (o & Ho & H)%revise_inv v w Hin.
  destruct o as [[i j]|]; [|destruct H as [_ ->]; by apply Hd].
  destruct H as (dx & dx' & Hdx & -> & Hdx' & _).
  destruct (decide (v = x)) as [->|Hvx]; [|rewrite lookup_insert_ne by done; by apply Hd].
  rewrite lookup_insert_eq. exists dx'. split; [done|]. apply Hdx'.
  destruct (Hd x w Hin) as (dx0 & Hdx0 & Hw). assert (dx0 = dx) as -> by congruence.
  split; [done|].
  destruct (valid_solution_lookup c y Hc Hy) as [wy Hwy].
  destruct (Hd y wy Hwy) as (dy & Hdy & Hwy').
  assert (y ∈ neighbors cw x) as Hnb.
  { apply elem_of_neighbors. split_and!; [done|done|]. by exists (i, j). }
  destruct Hc as (_ & _ & _ & _ & Hov).
  destruct (Hov x y w wy Hin Hwy Hnb) as (i' & j' & Ho' & Hag).
  rewrite Ho in Ho'. injection Ho' as <- <-.
  exists wy. split; [|done]. by rewrite lookup_total_alt, Hdy.
Qed.

Lemma ac3_loop_within fuel queue d ok d' c :
  valid_solution cw c → within d c → slot_arcs cw queue →
  ac3_loop cw fuel queue d = Ok (ok, d') → within d' c.
Proof.
  intros Hc. revert queue d. induction fuel as [|fuel IH]; intros queue d Hd Hq H; [done|].
  simpl in H. destruct queue as [|[x y] queue]; [by injection H as <- <-|].
  apply bind_Ok in H as ([revised d1] & Hr & H).
  destruct (Hq x y) as (Hx & Hy & Hne); [left|].
  pose proof (revise_within _ _ _ _ _ _ Hc Hd Hx Hy Hne Hr) as Hd1.
  assert (slot_arcs cw queue) as Hq' by (intros u v Huv; apply Hq; by right).
  destruct revised; [|by eapply IH].
  apply bind_Ok in H as (dx & _ & H).
  destruct (decide (length dx = 0)); [by injection H as <- <-|].
  eapply IH; [done| |done].
  intros u v [Huv|Huv]%elem_of_app; [by apply Hq'|].
  apply list_elem_of_fmap in Huv as (z & [= -> ->] & [Hz _]%list_elem_of_difference).
  apply elem_of_neighbors in Hz as (Hz & Hzx & _). done.
Qed.

Lemma slot_arcs_all_arcs : slot_arcs cw (all_arcs cw).
Proof.
  intros x y [Hx (Hy & Hne & _)%elem_of_neighbors]%elem_of_all_arcs. simpl in *. done.
Qed.

Lemma backtrack_values_None rec a var values value :
  backtrack_values cw rec a var values = Ok None → value ∈ values →
  consistent cw (assignment_set a var value) = Ok false
  ∨ rec (assignment_set a var value) = Ok None.
Proof.
  induction values as [|v0 values IH]; simpl; [by intros _ ?%elem_of_nil|].
  intros (ok & Hok & H)%bind_Ok Hin.
  assert (backtrack_values cw rec a var values = Ok None →
          consistent cw (assignment_set a var v0) = Ok false
          ∨ rec (assignment_set a var v0) = Ok None →
          consistent cw (assignment_set a var value) = Ok false
          ∨ rec (assignment_set a var value) = Ok None) as Hcases.
  { intros Hrest Hhere. apply elem_of_cons in Hin as [->|Hin]; auto. }
  destruct ok; [|apply Hcases; auto].
  apply bind_Ok in H as ([r|] & Hrec & H); [done|]. apply Hcases; auto.
Qed.

Lemma order_domain_values_Permutation d var a values dvar :
  order_domain_values cw d var a = Ok values → d !! var = Some dvar →
  values ≡ₚ dvar.
Proof.
  unfold order_domain_values. intros (dv & Hdv%or_raise_Ok & H)%bind_Ok Hdvar.
  assert (dv = dvar) as -> by congruence.
  apply bind_Ok in H as (keys & Hkeys%mapM_Ok & [= <-]).
  unfold sorted. destruct (sorted_pairs_spec (zip keys dvar)) as (Hperm & _).
  rewrite Hperm. rewrite snd_zip; [done|]. by rewrite (Forall2_length _ _ _ Hkeys).
Qed.

(** If the search gives up, no solution inside the store extends the
    assignment it started from. *)
Lemma backtrack_None fuel d a c :
  backtrack cw fuel d a = Ok None →
  NoDup a.*1 → a ⊆ c → valid_solution cw c → within d c → False.
Proof.
  intros H Hnd Hsub Hc Hd. revert a H Hnd Hsub.
  induction fuel as [|fuel IH]; intros a H Hnd Hsub; [done|]. simpl in H.
  destruct (assignment_complete cw a); [done|].
  apply bind_Ok in H as (var & Hvar & H).
  apply bind_Ok in H as (values & Hvalues & H).
  apply select_unassigned_variable_first in Hvar as (l1 & l2 & Heq & _).
  assert (var ∈ unassigned_variables cw a) as [Hv Hget]%elem_of_unassigned_variables
    by (rewrite Heq; set_solver).
  destruct (valid_solution_lookup c var Hc Hv) as [w Hw].
  destruct (Hd var w Hw) as (dvar & Hdvar & Hwd).
  assert (w ∈ values) as Hin
    by by rewrite (order_domain_values_Permutation _ _ _ _ _ Hvalues Hdvar).
  assert (NoDup (a ++ [(var, w)]).*1) as Hnd'.
  { rewrite fmap_app. simpl. apply NoDup_app. split_and!; [done| |apply NoDup_singleton].
    intros v Hv' Hs%list_elem_of_singleton. subst v. by apply assignment_get_None in Hget. }
  assert (a ++ [(var, w)] ⊆ c) as Hsub'.
  { intros p [Hp|Hp%list_elem_of_singleton]%elem_of_app; [by apply Hsub|by subst p]. }
  apply (backtrack_values_None _ _ _ _ w) in H as [Hcons|Hrec]; [| |done];
    rewrite assignment_set_fresh in * by done.
  - apply (valid_solution_no_conflict c Hc), (conflict_mono (a ++ [(var, w)])); [done|].
    by apply (consistent_Ok cw _ false Hnd' Hcons).
  - by eapply IH.
Qed.

End pruning.

Lemma solve_None_complete (cw : Crossword) (d : Domains) (c : Assignment) :
  solve cw d = Ok None → valid_solution cw c → within d c → False.
Proof.
  intros (d' & (ok & Hac3 & Hb)%solve_run_Ok)%solve_Ok Hc Hd.
  apply (backtrack_None cw _ _ _ c Hb); [constructor|by intros ? ?%elem_of_nil|done|].
  eapply ac3_loop_within; [done| |apply slot_arcs_all_arcs|exact Hac3].
  by apply (enforce_node_consistency_within cw).
Qed.

(** X1. Completeness of the solver.  If [solve] returns [None], no
    solution of the puzzle takes all its words from the store: node
    consistency and AC-3 remove no word of such a solution, and the
    search visits every consistent extension. *)
Theorem solve_None_no_solution (cw : Crossword) (d : Domains) :
  solve cw d = Ok None →
  ¬ ∃ c, valid_solution cw c ∧ within d c.
Proof. intros H (c & Hc & Hd). by eapply solve_None_complete. Qed.

Lemma solve_None_no_solution_witness :
  solve (Crossing.puzzle ["CAT"; "DOG"])
    (init_domains (Crossing.puzzle ["CAT"; "DOG"])) = Ok None
  ∧ ¬ ∃ c, valid_solution (Crossing.puzzle ["CAT"; "DOG"]) c
           ∧ within (init_domains (Crossing.puzzle ["CAT"; "DOG"])) c.
Proof.
  assert (solve (Crossing.puzzle ["CAT"; "DOG"])
            (init_domains (Crossing.puzzle ["CAT"; "DOG"])) = Ok None) as H
    by (vm_compute; reflexivity).
  split; [exact H|].
  exact (solve_None_no_solution (Crossing.puzzle ["CAT"; "DOG"])
           (init_domains (Crossing.puzzle ["CAT"; "DOG"])) H).
Defined.

(** X2. AC-3 is safe on a solvable puzzle: if a solution takes all its
    words from the store, [ac3] over all arcs, when it returns, returns
    [True] and leaves every word of the solution in the store. *)
Theorem ac3_keeps_solutions (cw : Crossword) (d d' : Domains) (ok : bool)
    (c : Assignment) :
  valid_solution cw c → within d c →
  ac3 cw d None = Ok (ok, d') →
  ok = true ∧ within d' c.
Proof.
  intros Hc Hd Hac3.
  assert (within d' c) as Hd'
    by (eapply ac3_loop_within; [done..|apply slot_arcs_all_arcs|exact Hac3]).
  split; [|done]. destruct ok; [done|].
  destruct (ac3_false cw _ _ Hac3) as (x & Hx & Hdx).
  destruct (valid_solution_lookup cw c x Hc Hx) as [w Hw].
  destruct (Hd' x w Hw) as (dx & Hdx' & Hin).
  rewrite Hdx in Hdx'. injection Hdx' as <-. by apply elem_of_nil in Hin.
Qed.

Module SolvedCrossingFacts.
Import Crossing SolvedCrossing.

Lemma puzzle_well_formed dict : well_formed (puzzle dict).
Proof.
  split_and!.
  - apply (bool_decide_unpack _). vm_compute. exact I.
  - apply CrossingFacts.puzzle_in_range.
  - apply CrossingFacts.puzzle_symmetric.
Qed.

Lemma solution_valid : valid_solution (puzzle dictionary) solution.
Proof.
  apply visited_complete_valid; [apply puzzle_well_formed| |reflexivity].
  split_and!.
  - apply (bool_decide_unpack _). vm_compute. exact I.
  - intros v Hv. apply (bool_decide_unpack _).
    repeat (apply elem_of_cons in Hv as [->|Hv]; [vm_compute; exact I|]).
    by apply elem_of_nil in Hv.
  - vm_compute. reflexivity.
Qed.

Lemma solution_within dx dy :
  "CAT" ∈ dx → "ART" ∈ dy → within (store dx dy) solution.
Proof.
  intros Hx Hy v w Hin.
  apply elem_of_cons in Hin as [[= -> ->]|Hin]; [by exists dx|].
  apply elem_of_cons in Hin as [[= -> ->]|Hin]; [by exists dy|].
  by apply elem_of_nil in Hin.
Qed.
End SolvedCrossingFacts.

Lemma ac3_keeps_solutions_witness :
  true = true
  ∧ within (Crossing.store ["CAT"] ["ART"]) SolvedCrossing.solution.
Proof.
  apply (ac3_keeps_solutions (Crossing.puzzle SolvedCrossing.dictionary)
           (Crossing.store ["CAT"; "ART"] ["CAT"; "ART"])
           (Crossing.store ["CAT"] ["ART"]) true SolvedCrossing.solution).
  - apply SolvedCrossingFacts.solution_valid.
  - apply SolvedCrossingFacts.solution_within; apply (bool_decide_unpack _); vm_compute; exact I.
  - vm_compute. reflexivity.
Defined.

(** ** The words of a solution *)

Section solution_words.
Context (cw : Crossword).

Lemma order_domain_values_elem_of d var a values w :
  order_domain_values cw d var a = Ok values → w ∈ values →
  ∃ dvar, d !! var = Some dvar ∧ w ∈ dvar.
Proof.
  intros Hv Hw. pose proof Hv as Hv'. unfold order_domain_values in Hv'.
  apply bind_Ok in Hv' as (dvar & Hdvar%or_raise_Ok & _). exists dvar. split; [done|].
  by rewrite <-(order_domain_values_Permutation cw _ _ _ _ _ Hv Hdvar).
Qed.

(** The search appends to the assignment it is given, and every word it
    adds is a candidate of its slot. *)
Lemma backtrack_extends fuel d a r :
  backtrack cw fuel d a = Ok (Some r) →
  ∃ ext, r = a ++ ext ∧ within d ext
    ∧ ∀ v, v ∈ ext.*1 → v ∈ variables cw ∧ assignment_get a v = None.
Proof.
  revert a. induction fuel as [|fuel IH]; intros a H; [done|]. simpl in H.
  destruct (assignment_complete cw a).
  { injection H as <-. exists []. rewrite app_nil_r. split_and!; [done| |].
    - by intros ?? ?%elem_of_nil.
    - by intros ? ?%elem_of_nil. }
  apply bind_Ok in H as (var & Hvar & H).
  apply bind_Ok in H as (values & Hvalues & H).
  apply backtrack_values_Some in H as (value & Hin & _ & Hrec).
  apply select_unassigned_variable_first in Hvar as (l1 & l2 & Heq & _).
  assert (var ∈ unassigned_variables cw a) as [Hv Hget]%elem_of_unassigned_variables
    by (rewrite Heq; set_solver).
  rewrite assignment_set_fresh in Hrec by done.
  apply IH in Hrec as (ext & -> & Hext & Hkeys).
  exists ((var, value) :: ext). split_and!.
  - by rewrite <-app_assoc.
  - intros v w [[= -> ->]|Hvw]%elem_of_cons; [|by apply Hext].
    by eapply order_domain_values_elem_of.
  - intros v [->|Hv']%elem_of_cons; [done|]. destruct (Hkeys v Hv') as [? Hg].
    split; [done|]. apply assignment_get_None. apply assignment_get_None in Hg.
    rewrite fmap_app in Hg. set_solver.
Qed.

Lemma ac3_loop_subseteq fuel queue d ok d' v dv' :
  ac3_loop cw fuel queue d = Ok (ok, d') → d' !! v = Some dv' →
  ∃ dv, d !! v = Some dv ∧ dv' ⊆ dv.
Proof.
  intros H. revert dv'.
  apply (ac3_loop_preserves cw
           (λ d1, ∀ dv', d1 !! v = Some dv' → ∃ dv, d !! v = Some dv ∧ dv' ⊆ dv))
    with (fuel := fuel) (queue := queue) (d := d) (ok := ok); [|by eauto|done].
  intros x y d1 revised d2 Hd1 Hr dv2 Hv.
  destruct (revise_subseteq cw _ _ _ _ _ _ _ Hr Hv) as (dv1 & Hdv1 & Hsub).
  destruct (Hd1 dv1 Hdv1) as (dv & Hdv & Hsub'). exists dv. split; [done|]. set_solver.
Qed.

Lemma enforce_node_consistency_subseteq d v dv' :
  enforce_node_consistency d !! v = Some dv' →
  ∃ dv, d !! v = Some dv ∧ dv' ⊆ dv.
Proof.
  rewrite enforce_node_consistency_lookup. destruct (d !! v) as [dv|]; [|done].
  simpl. intros [= <-]. exists dv. split; [done|].
  intros w [Hw _]%list_elem_of_difference. done.
Qed.

End solution_words.

Lemma solve_Some_within (cw : Crossword) (d : Domains) (a : Assignment) :
  solve cw d = Ok (Some a) → within d a.
Proof.
  intros (d' & (ok & Hac3 & Hb)%solve_run_Ok)%solve_Ok.
  apply backtrack_extends in Hb as (ext & -> & Hext & _). simpl.
  intros v w Hin. destruct (Hext v w Hin) as (dv2 & Hdv2 & Hw).
  destruct (ac3_loop_subseteq cw _ _ _ _ _ _ _ Hac3 Hdv2) as (dv1 & Hdv1 & Hsub1).
  destruct (enforce_node_consistency_subseteq _ _ _ Hdv1) as (dv & Hdv & Hsub).
  exists dv. split; [done|]. auto.
Qed.

(** X3. The words of a returned assignment are candidates: every word of
    an assignment returned by [solve] belongs to the domain of its slot in
    the store [solve] was started on (for a fresh creator, to the
    dictionary). *)
Theorem solve_within (cw : Crossword) (d : Domains) (a : Assignment) :
  solve cw d = Ok (Some a) → within d a.
Proof. apply solve_Some_within. Qed.

Lemma solve_within_witness :
  within (init_domains (Crossing.puzzle SolvedCrossing.dictionary))
    SolvedCrossing.solution.
Proof.
  apply (solve_within (Crossing.puzzle SolvedCrossing.dictionary)).
  vm_compute. reflexivity.
Defined.

(** X4. The search only appends: an assignment returned by [backtrack]
    starts with the assignment it was called on, and the entries after it
    are for slots of the puzzle that were unassigned, with words of their
    domains. *)
Theorem backtrack_appends (cw : Crossword) (fuel : nat) (d : Domains)
    (a r : Assignment) :
  backtrack cw fuel d a = Ok (Some r) →
  ∃ ext, r = a ++ ext ∧ within d ext
    ∧ ∀ v, v ∈ ext.*1 → v ∈ variables cw ∧ assignment_get a v = None.
Proof. apply backtrack_extends. Qed.

Lemma backtrack_appends_witness :
  ∃ ext, SolvedCrossing.solution = [(Crossing.across, "CAT")] ++ ext
    ∧ within (Crossing.store ["CAT"] ["ART"]) ext
    ∧ ∀ v, v ∈ ext.*1 →
        v ∈ variables (Crossing.puzzle SolvedCrossing.dictionary)
        ∧ assignment_get [(Crossing.across, "CAT")] v = None.
Proof.
  apply (backtrack_appends (Crossing.puzzle SolvedCrossing.dictionary) 3
           (Crossing.store ["CAT"] ["ART"])).
  vm_compute. reflexivity.
Defined.

(** ** Termination and exceptions *)

(** X5. On a well-formed puzzle (each slot listed once, overlap indices
    within the slots, symmetric overlap table) a fresh creator's [solve]
    returns an assignment or [None]: no [KeyError], [IndexError] or
    [ValueError] is raised and the loops terminate. *)
Theorem generate_no_exception (cw : Crossword) :
  well_formed cw → ∃ res, generate cw = Ok res.
Proof. apply generate_returns. Qed.

Lemma generate_no_exception_witness :
  ∃ res, generate (Crossing.puzzle SolvedCrossing.dictionary) = Ok res.
Proof.
  apply (generate_no_exception (Crossing.puzzle SolvedCrossing.dictionary)).
  apply SolvedCrossingFacts.puzzle_well_formed.
Defined.

(** X6. The loop of [ac3] terminates on every queue and store, within
    the length of the queue plus the number of candidate words in the store
    times one more than the number of slots turns: with more fuel than that
    the loop does not run out of it. *)
Theorem ac3_loop_terminates (cw : Crossword) (fuel : nat) (queue : list Arc)
    (d : Domains) :
  length queue + domains_size d * S (length (variables cw)) < fuel →
  ac3_loop cw fuel queue d ≠ Diverge.
Proof. apply ac3_loop_fuel. Qed.

Lemma ac3_loop_terminates_witness :
  length [(Crossing.across, Crossing.down)]
    + domains_size (Crossing.store ["CAT"; "ART"] ["ART"])
      * S (length (variables (Crossing.puzzle []))) < 20
  ∧ ac3_loop (Crossing.puzzle []) 20 [(Crossing.across, Crossing.down)]
      (Crossing.store ["CAT"; "ART"] ["ART"]) ≠ Diverge.
Proof.
  assert (length [(Crossing.across, Crossing.down)]
          + domains_size (Crossing.store ["CAT"; "ART"] ["ART"])
            * S (length (variables (Crossing.puzzle []))) < 20) as H
    by (vm_compute; lia).
  split; [exact H|].
  exact (ac3_loop_terminates (Crossing.puzzle []) 20
           [(Crossing.across, Crossing.down)]
           (Crossing.store ["CAT"; "ART"] ["ART"]) H).
Defined.

(** X7. The recursion of [backtrack] is no deeper than the number of
    unassigned slots plus one, whatever the store and the assignment: with
    more fuel than unassigned slots the search does not run out of it. *)
Theorem backtrack_terminates (cw : Crossword) (fuel : nat) (d : Domains)
    (a : Assignment) :
  length (unassigned_variables cw a) < fuel →
  backtrack cw fuel d a ≠ Diverge.
Proof. apply backtrack_fuel_enough. Qed.

Lemma backtrack_terminates_witness :
  length (unassigned_variables (Crossing.puzzle []) []) < 3
  ∧ backtrack (Crossing.puzzle []) 3 (Crossing.store ["CAT"] ["ART"]) [] ≠ Diverge.
Proof.
  assert (length (unassigned_variables (Crossing.puzzle []) []) < 3) as H
    by (vm_compute; lia).
  split; [exact H|].
  exact (backtrack_terminates (Crossing.puzzle []) 3
           (Crossing.store ["CAT"] ["ART"]) [] H).
Defined.

(** ** What AC-3 does to the store *)

Section ac3_store.
Context (cw : Crossword).

Lemma ac3_loop_dom fuel queue d ok d' :
  ac3_loop cw fuel queue d = Ok (ok, d') → dom d' = dom d.
Proof.
  intros H.
  apply (ac3_loop_preserves cw (λ d1, dom d1 = dom d))
    with (fuel := fuel) (queue := queue) (d := d) (ok := ok); [|done..].
  intros x y d1 revised d2 Hd1 Hr. by rewrite (revise_dom _ _ _ _ _ _ Hr).
Qed.




End ac3_store.

(** X8. [ac3] only removes words: when it returns, with [True] or with
    [False] and for any arcs, the store has the same keys as before and
    every domain is included in what it was. *)
Theorem ac3_shrinks (cw : Crossword) (d d' : Domains) (arcs : option (list Arc))
    (ok : bool) :
  ac3 cw d arcs = Ok (ok, d') →
  dom d' = dom d
  ∧ ∀ v dv', d' !! v = Some dv' → ∃ dv, d !! v = Some dv ∧ dv' ⊆ dv.
Proof.
  intros H. split; [by eapply ac3_loop_dom|].
  intros v dv' Hv. by eapply ac3_loop_subseteq.
Qed.

Lemma ac3_shrinks_witness :
  dom (Crossing.store ["CAT"] ["ART"]) = dom (Crossing.store ["CAT"; "ART"] ["CAT"; "ART"])
  ∧ ∀ v dv', Crossing.store ["CAT"] ["ART"] !! v = Some dv' →
      ∃ dv, Crossing.store ["CAT"; "ART"] ["CAT"; "ART"] !! v = Some dv ∧ dv' ⊆ dv.
Proof.
  apply (ac3_shrinks (Crossing.puzzle []) (Crossing.store ["CAT"; "ART"] ["CAT"; "ART"])
           (Crossing.store ["CAT"] ["ART"]) None true).
  vm_compute. reflexivity.
Defined.



(** ** Node consistency, once more *)

Section enforce_facts.

Lemma list_difference_filter (P : string → Prop) `{!∀ w, Decision (P w)}
    (l k : list string) :
  (∀ w, w ∈ l → (w ∈ k ↔ ¬ P w)) → list_difference l k = filter P l.
Proof.
  induction l as [|x l IH]; intros Hk; simpl; [done|].
  rewrite filter_cons, IH by (intros w Hw; apply Hk; by right).
  specialize (Hk x ltac:(left)).
  destruct (decide_rel elem_of x k) as [Hin|Hin], (decide (P x)) as [HP|HP];
    naive_solver.
Qed.

Lemma enforce_node_consistency_filter d v :
  enforce_node_consistency d !! v
  = filter (λ w, String.length w = var_length v) <$> d !! v.
Proof.
  rewrite enforce_node_consistency_lookup. destruct (d !! v) as [dv|]; [|done].
  simpl. f_equal. apply list_difference_filter. intros w Hw.
  rewrite list_elem_of_filter. naive_solver.
Qed.

Lemma filter_filter_same {A} (P : A → Prop) `{!∀ x, Decision (P x)} (l : list A) :
  filter P (filter P l) = filter P l.
Proof.
  induction l as [|x l IH]; [done|]. rewrite filter_cons.
  destruct (decide (P x)); [|done]. rewrite filter_cons, decide_True by done.
  by rewrite IH.
Qed.

End enforce_facts.

(** X10. Node consistency keeps exactly the words of the right length:
    the store has the same keys, and a word is in the domain of a slot
    afterwards iff it was in it before and its length is the length of the
    slot.  No word of the right length is lost. *)
Theorem enforce_node_consistency_exact (d : Domains) (v : Var) :
  dom (enforce_node_consistency d) = dom d
  ∧ ∀ w, w ∈ enforce_node_consistency d !!! v
         ↔ w ∈ d !!! v ∧ String.length w = var_length v.
Proof.
  split.
  - apply set_eq. intros u. rewrite !elem_of_dom, enforce_node_consistency_filter.
    by rewrite fmap_is_Some.
  - intros w. rewrite !lookup_total_alt, enforce_node_consistency_filter.
    destruct (d !! v) as [dv|]; simpl.
    + by rewrite list_elem_of_filter, (comm and).
    + split; [by intros ?%elem_of_nil|by intros [?%elem_of_nil _]].
Qed.

(** X11. Node consistency is idempotent: enforcing it a second time
    changes nothing. *)
Theorem enforce_node_consistency_idempotent (d : Domains) :
  enforce_node_consistency (enforce_node_consistency d) = enforce_node_consistency d.
Proof.
  apply map_eq. intros v. rewrite !enforce_node_consistency_filter.
  destruct (d !! v) as [dv|]; [|done]. simpl. by rewrite filter_filter_same.
Qed.

(** ** Revising twice *)

Section revise_twice.
Context (cw : Crossword).

Lemma revise_loop_supported_loop d y i j xs rem w :
  revise_loop d y i j xs = Ok rem → w ∈ xs →
  is_Some (d !! y) ∧ ∃ b, supported_loop w i j (d !!! y) = Ok b.
Proof.
  revert rem. induction xs as [|xval xs IH]; intros rem H Hw; simpl in H.
  - by apply elem_of_nil in Hw.
  - apply bind_Ok in H as (dy & Hdy%or_raise_Ok & H).
    apply bind_Ok in H as (b & Hb & H).
    apply bind_Ok in H as (rest & Hrest & _).
    apply elem_of_cons in Hw as [->|Hw]; [|by eapply IH].
    split; [by eexists|]. exists b. by rewrite lookup_total_alt, Hdy.
Qed.

Lemma revise_loop_all_supported d y i j xs :
  (xs ≠ [] → is_Some (d !! y)) →
  (∀ w, w ∈ xs → supported_loop w i j (d !!! y) = Ok true) →
  revise_loop d y i j xs = Ok [].
Proof.
  intros Hy Hxs. induction xs as [|xval xs IH]; simpl; [done|].
  destruct Hy as [dy Hdy]; [done|]. unfold getdomain. rewrite Hdy. simpl.
  pose proof (Hxs xval ltac:(left)) as Hx. rewrite lookup_total_alt, Hdy in Hx.
  simpl in Hx. rewrite Hx. simpl.
  rewrite IH; [done|by eauto|]. intros w Hw. apply Hxs. by right.
Qed.

Lemma revise_again x y d revised d' :
  x ≠ y → revise cw x y d = Ok (revised, d') → revise cw x y d' = Ok (false, d').
Proof.
  intros Hne H. pose proof H as (o & Ho & Hinv)%revise_inv.
  unfold revise, getoverlap in *. rewrite Ho in *. simpl in *.
  destruct o as [[i j]|]; [|done].
  destruct Hinv as (dx & dx' & Hdx & -> & Hin & _).
  unfold getdomain in *. rewrite Hdx in H. simpl in H.
  apply bind_Ok in H as (rem & Hrem & _).
  rewrite lookup_insert_eq. simpl.
  rewrite revise_loop_all_supported; [done| |].
  - intros Hnil. rewrite lookup_insert_ne by done.
    destruct dx' as [|w dx']; [done|].
    assert (w ∈ dx) as Hw by (apply Hin; left).
    by destruct (revise_loop_supported_loop _ _ _ _ _ _ _ Hrem Hw).
  - intros w Hw. rewrite lookup_total_insert_ne by done.
    apply Hin in Hw as [Hw Hsup].
    destruct (revise_loop_supported_loop _ _ _ _ _ _ _ Hrem Hw) as [_ [b Hb]].
    rewrite Hb. f_equal. by apply (supported_loop_Ok _ _ _ _ _ Hb).
Qed.

End revise_twice.

(** X12. [revise] is idempotent: after a call of [revise x y] that
    returned, on distinct slots, a second call returns [False] and leaves
    the store as it is. *)
Theorem revise_idempotent (cw : Crossword) (x y : Var) (d d' : Domains)
    (revised : bool) :
  x ≠ y →
  revise cw x y d = Ok (revised, d') →
  revise cw x y d' = Ok (false, d').
Proof. apply revise_again. Qed.

Lemma revise_idempotent_witness :
  revise (Crossing.puzzle []) Crossing.across Crossing.down
    (Crossing.store ["CAT"] ["ART"])
  = Ok (false, Crossing.store ["CAT"] ["ART"]).
Proof.
  apply (revise_idempotent (Crossing.puzzle []) Crossing.across Crossing.down
           (Crossing.store ["CAT"; "ART"] ["ART"]) (Crossing.store ["CAT"] ["ART"]) true).
  - discriminate.
  - vm_compute. reflexivity.
Defined.

(** ** Parts of a consistent assignment *)

(** X13. Every part of a consistent assignment is consistent (on a puzzle
    whose overlap indices lie within the slots): an assignment on which
    [consistent] returns [False] cannot be extended to one on which it
    returns [True], which is why the search may drop it. *)
Theorem consistent_part (cw : Crossword) (a c : Assignment) :
  overlaps_in_range cw →
  NoDup a.*1 → NoDup c.*1 → a ⊆ c →
  consistent cw c = Ok true →
  consistent cw a = Ok true.
Proof.
  intros Hrange Hnda Hndc Hsub Hc.
  destruct (consistent_total cw a Hrange) as [[|] Ha]; [done|].
  pose proof (proj1 (consistent_Ok cw a false Hnda Ha) eq_refl) as Hconf.
  apply (conflict_mono cw a c Hsub) in Hconf.
  by apply (consistent_Ok cw c true Hndc Hc) in Hconf.
Qed.

Lemma consistent_part_witness :
  consistent (Crossing.puzzle []) [(Crossing.across, "CAT")] = Ok true.
Proof.
  apply (consistent_part (Crossing.puzzle []) [(Crossing.across, "CAT")]
           SolvedCrossing.solution).
  - apply CrossingFacts.puzzle_in_range.
  - apply (bool_decide_unpack _). vm_compute. exact I.
  - apply (bool_decide_unpack _). vm_compute. exact I.
  - intros p Hp%list_elem_of_singleton. subst p. left.
  - vm_compute. reflexivity.
Defined.

(** ** The least-constraining-value order *)

Section lcv.
Context (cw : Crossword).

Lemma conflicts_words_Ok val i j nb_vals count n :
  conflicts_words val i j nb_vals count = Ok n →
  n = count + disagreeing i j val nb_vals.
Proof.
  unfold disagreeing. revert count.
  induction nb_vals as [|w nb_vals IH]; intros count H; simpl in H.
  - injection H as <-. simpl. lia.
  - apply bind_Ok in H as (a & Ha%getitem_Ok & H).
    apply bind_Ok in H as (b & Hb%getitem_Ok & H).
    apply IH in H as ->. rewrite filter_cons.
    destruct (decide (a ≠ b)) as [Hne|Heq].
    + rewrite decide_True; [simpl; lia|]. intros (c & ? & ?). congruence.
    + rewrite decide_False; [lia|]. intros Hn. apply Hn.
      apply dec_stable in Heq. subst b. by exists a.
Qed.

Lemma conflicts_neighbors_Ok d a var val nbs count n :
  conflicts_neighbors cw d a var val nbs count = Ok n →
  n = count + sum_list_with
        (λ nb, match assignment_get a nb, overlaps cw !! (var, nb) with
               | None, Some (Some (i, j)) => disagreeing i j val (d !!! nb)
               | _, _ => 0
               end) nbs.
Proof.
  revert count. induction nbs as [|nb nbs IH]; intros count H; simpl in H.
  - injection H as <-. simpl. lia.
  - simpl. destruct (assignment_get a nb); [apply IH in H; lia|].
    apply bind_Ok in H as (o & Ho%or_raise_Ok & H). rewrite Ho.
    destruct o as [[i j]|]; [|apply IH in H; lia].
    apply bind_Ok in H as (dnb & Hdnb%or_raise_Ok & H).
    apply bind_Ok in H as (count' & ->%conflicts_words_Ok & H).
    apply IH in H. rewrite lookup_total_alt, Hdnb. simpl. lia.
Qed.

Lemma conflicts_count_Ok d a var val n :
  conflicts_count cw d a var val = Ok n → n = ruled_out cw d a var val.
Proof. unfold conflicts_count, ruled_out. by intros ->%conflicts_neighbors_Ok. Qed.

Lemma StronglySorted_fst (l : list (nat * string)) :
  StronglySorted key_le l → StronglySorted le l.*1.
Proof.
  induction 1 as [|p l Hl IH Hall]; simpl; constructor; [done|].
  apply Forall_fmap. by eapply Forall_impl.
Qed.

Lemma order_domain_values_sorted d var a values :
  order_domain_values cw d var a = Ok values →
  ∃ counts, Forall2 (λ w n, conflicts_count cw d a var w = Ok n) values counts
    ∧ StronglySorted le counts.
Proof.
  unfold order_domain_values. intros (dvar & _ & H)%bind_Ok.
  apply bind_Ok in H as (keys & Hkeys%mapM_Ok & [= <-]). unfold sorted.
  destruct (sorted_pairs_spec (zip keys dvar)) as (Hperm & Hsorted & _).
  set (out := foldr _ _ _) in *. exists out.*1. split; [|by apply StronglySorted_fst].
  apply Forall2_fmap, Forall_Forall2_diag, Forall_forall. intros [k w] Hin. simpl.
  rewrite Hperm in Hin. apply list_elem_of_lookup in Hin as [n Hn].
  apply lookup_zip_with_Some in Hn as (k' & w' & [= <- <-] & Hk & Hw).
  by eapply (Forall2_lookup_lr _ _ _ _ _ _ Hkeys).
Qed.

End lcv.

(** X14. The conflict count of least-constraining-value.  For a word of
    the domain of [var], in a store that is node consistent and has a
    domain for every slot of a well-formed puzzle, [conflicts_count]
    returns the number of pairs of an unassigned neighbour of [var] and a
    candidate of that neighbour whose letter at the overlap differs from the
    letter of the word; assigned neighbours count for nothing. *)
Theorem conflicts_count_correct (cw : Crossword) (d : Domains) (a : Assignment)
    (var : Var) (val : string) (dvar : list string) :
  well_formed cw → covers cw d → node_consistent d →
  d !! var = Some dvar → val ∈ dvar →
  conflicts_count cw d a var val = Ok (ruled_out cw d a var val).
Proof.
  intros Hwf Hd Hnc Hdvar Hval.
  destruct (conflicts_count_returns cw Hwf d a var val dvar) as [n Hn]; [done..|].
  by rewrite Hn, (conflicts_count_Ok cw _ _ _ _ _ Hn).
Qed.

Lemma conflicts_count_correct_witness :
  conflicts_count (Crossing.puzzle []) (Crossing.store ["CAT"; "CAR"] ["ART"; "CAT"])
    [] Crossing.across "CAT"
  = Ok (ruled_out (Crossing.puzzle []) (Crossing.store ["CAT"; "CAR"] ["ART"; "CAT"])
          [] Crossing.across "CAT").
Proof.
  apply (conflicts_count_correct (Crossing.puzzle [])
           (Crossing.store ["CAT"; "CAR"] ["ART"; "CAT"]) [] Crossing.across "CAT"
           ["CAT"; "CAR"]).
  - apply SolvedCrossingFacts.puzzle_well_formed.
  - intros v Hv. simpl in Hv.
    repeat (apply elem_of_cons in Hv as [->|Hv]; [vm_compute; eauto|]).
    by apply elem_of_nil in Hv.
  - intros v dv w Hv Hw. unfold Crossing.store in Hv. simpl in Hv.
    apply lookup_insert_Some in Hv as [[<- <-]|[_ Hv]].
    { repeat (apply elem_of_cons in Hw as [->|Hw]; [reflexivity|]).
      by apply elem_of_nil in Hw. }
    apply lookup_insert_Some in Hv as [[<- <-]|[_ Hv]].
    { repeat (apply elem_of_cons in Hw as [->|Hw]; [reflexivity|]).
      by apply elem_of_nil in Hw. }
    by rewrite lookup_empty in Hv.
  - reflexivity.
  - left.
Defined.

(** X15. [order_domain_values] returns the candidates of the slot, all of
    them and nothing else (a permutation of its domain), in an order along
    which the conflict count never decreases. *)
Theorem order_domain_values_correct (cw : Crossword) (d : Domains) (var : Var)
    (a : Assignment) (values : list string) :
  order_domain_values cw d var a = Ok values →
  values ≡ₚ d !!! var
  ∧ ∃ counts, Forall2 (λ w n, conflicts_count cw d a var w = Ok n) values counts
      ∧ StronglySorted le counts.
Proof.
  intros H. split; [|by eapply order_domain_values_sorted].
  pose proof H as (dvar & Hdvar%or_raise_Ok & _)%bind_Ok.
  rewrite lookup_total_alt, Hdvar. simpl.
  by eapply order_domain_values_Permutation.
Qed.

Lemma order_domain_values_correct_witness :
  ["CAR"; "OAT"]
    ≡ₚ Crossing.store ["TOT"; "ACT"; "ICE"] ["OAT"; "CAR"] !!! Crossing.down
  ∧ ∃ counts,
      Forall2 (λ w n, conflicts_count (Crossing.puzzle [])
                        (Crossing.store ["TOT"; "ACT"; "ICE"] ["OAT"; "CAR"])
                        [] Crossing.down w = Ok n)
        ["CAR"; "OAT"] counts
      ∧ StronglySorted le counts.
Proof.
  apply (order_domain_values_correct (Crossing.puzzle [])
           (Crossing.store ["TOT"; "ACT"; "ICE"] ["OAT"; "CAR"]) Crossing.down []).
  vm_compute. reflexivity.
Defined.

(** ** Exceptions of the selection *)

Section select_exceptions.
Context (cw : Crossword).

Lemma select_key_cases d v :
  (∃ dv, d !! v = Some dv ∧ ∃ k, select_key cw d v = Ok k)
  ∨ (d !! v = None ∧ select_key cw d v = Raise KeyError).
Proof.
  unfold select_key, getdomain. destruct (d !! v) as [dv|]; simpl; eauto.
Qed.

Lemma mapM_select_key_KeyError d l v :
  v ∈ l → d !! v = None → mapM (select_key cw d) l = Raise KeyError.
Proof.
  intros Hv Hd. induction l as [|x l IH]; [by apply elem_of_nil in Hv|]. simpl.
  destruct (select_key_cases d x) as [(dx & Hdx & k & ->)|[_ ->]]; [|done]. simpl.
  apply elem_of_cons in Hv as [->|Hv]; [congruence|]. by rewrite IH.
Qed.

Lemma select_unassigned_variable_cases d a :
  match select_unassigned_variable cw d a with
  | Ok var => var ∈ unassigned_variables cw a
  | Raise ValueError => unassigned_variables cw a = []
  | Raise KeyError => ∃ v, v ∈ unassigned_variables cw a ∧ d !! v = None
  | Raise IndexError => False
  | Diverge => False
  end.
Proof.
  destruct (decide (Forall (λ v, is_Some (d !! v)) (unassigned_variables cw a)))
    as [Hall|Hex].
  - destruct (unassigned_variables cw a) as [|v0 l] eqn:Hl.
    + unfold select_unassigned_variable. by rewrite Hl.
    + destruct (select_unassigned_variable_total cw d a) as [var Hvar].
      { by rewrite Hl. }
      { rewrite Hl. by apply Forall_forall. }
      rewrite Hvar.
      apply select_unassigned_variable_first in Hvar as (l1 & l2 & Heq & _).
      rewrite <-Hl, Heq. set_solver.
  - apply not_Forall_Exists, Exists_exists in Hex as (v & Hv & Hnone); [|apply _].
    simpl in Hnone. apply eq_None_not_Some in Hnone.
    unfold select_unassigned_variable.
    rewrite (mapM_select_key_KeyError d _ v Hv Hnone). simpl. by exists v.
Qed.

Lemma select_unassigned_variable_ValueError d a :
  unassigned_variables cw a = [] →
  select_unassigned_variable cw d a = Raise ValueError.
Proof. intros Hnil. unfold select_unassigned_variable. by rewrite Hnil. Qed.

Lemma select_unassigned_variable_KeyError d a v :
  v ∈ unassigned_variables cw a → d !! v = None →
  select_unassigned_variable cw d a = Raise KeyError.
Proof.
  intros Hv Hnone. unfold select_unassigned_variable.
  by rewrite (mapM_select_key_KeyError d _ v Hv Hnone).
Qed.

End select_exceptions.

(** X16. The exceptions of [select_unassigned_variable].  It raises
    [ValueError] (the [min] of an empty sequence) iff no slot of the puzzle
    is unassigned, and [KeyError] iff some unassigned slot has no domain
    in the store; otherwise, that is iff some slot is unassigned and every
    unassigned slot has a domain, it returns, and what it returns is an
    unassigned slot of the puzzle. *)
Theorem select_unassigned_variable_exceptions (cw : Crossword) (d : Domains)
    (a : Assignment) :
  (select_unassigned_variable cw d a = Raise ValueError
   ↔ unassigned_variables cw a = [])
  ∧ (select_unassigned_variable cw d a = Raise KeyError
     ↔ ∃ v, v ∈ unassigned_variables cw a ∧ d !! v = None)
  ∧ ((∃ var, select_unassigned_variable cw d a = Ok var)
     ↔ unassigned_variables cw a ≠ []
       ∧ ∀ v, v ∈ unassigned_variables cw a → is_Some (d !! v))
  ∧ (∀ var, select_unassigned_variable cw d a = Ok var →
       var ∈ variables cw ∧ assignment_get a var = None).
Proof.
  pose proof (select_unassigned_variable_cases cw d a) as H.
  refine (conj _ (conj _ (conj _ _))).
  - split; [|apply select_unassigned_variable_ValueError].
    intros Heq. by rewrite Heq in H.
  - split; [intros Heq; by rewrite Heq in H|].
    intros (v & Hv & Hnone). by eapply select_unassigned_variable_KeyError.
  - split.
    + intros [var Heq]. split.
      * rewrite Heq in H. intros Hnil. rewrite Hnil in H. by apply elem_of_nil in H.
      * intros v Hv. destruct (d !! v) as [dv|] eqn:Hdv; [by eexists|].
        rewrite (select_unassigned_variable_KeyError cw d a v Hv Hdv) in Heq. done.
    + intros [Hne Hall]. by apply select_unassigned_variable_total.
  - intros var Heq. rewrite Heq in H. by apply elem_of_unassigned_variables.
Qed.

(** ** Complete assignments and the initial store *)

(** X17. [assignment_complete] compares two sizes.  For an assignment
    whose keys are slots of the puzzle (each slot listed once in the slot
    set), it returns [True] iff every slot of the puzzle is assigned. *)
Theorem assignment_complete_correct (cw : Crossword) (a : Assignment) :
  NoDup (variables cw) → NoDup a.*1 →
  (∀ v, v ∈ a.*1 → v ∈ variables cw) →
  (assignment_complete cw a = true
   ↔ ∀ v, v ∈ variables cw → is_Some (assignment_get a v)).
Proof.
  intros Hvars Hnd Hsub. unfold assignment_complete. rewrite bool_decide_eq_true.
  split.
  - intros Hlen v Hv.
    assert (a.*1 ≡ₚ variables cw) as Hperm.
    { apply submseteq_length_Permutation; [by apply NoDup_submseteq|].
      by rewrite length_fmap, Hlen. }
    rewrite <-Hperm in Hv. apply not_eq_None_Some. by intros ?%assignment_get_None.
  - intros Hall. rewrite <-(length_fmap fst a). apply Permutation_length.
    apply NoDup_Permutation; [done..|]. intros v. split; [apply Hsub|].
    intros Hv. destruct (decide (v ∈ a.*1)) as [|Hn]; [done|].
    apply assignment_get_None in Hn. destruct (Hall v Hv) as [w Hw]. congruence.
Qed.

Lemma assignment_complete_correct_witness :
  assignment_complete (Crossing.puzzle []) [(Crossing.across, "CAT")] = true
  ↔ ∀ v, v ∈ variables (Crossing.puzzle []) →
      is_Some (assignment_get [(Crossing.across, "CAT")] v).
Proof.
  apply (assignment_complete_correct (Crossing.puzzle []) [(Crossing.across, "CAT")]).
  - apply (bool_decide_unpack _). vm_compute. exact I.
  - apply (bool_decide_unpack _). vm_compute. exact I.
  - intros v Hv%list_elem_of_singleton. subst v. left.
Defined.

Section init_facts.
Context (cw : Crossword).

Lemma init_domains_lookup v :
  init_domains cw !! v = if decide (v ∈ variables cw) then Some (words cw) else None.
Proof.
  unfold init_domains. induction (variables cw) as [|x l IH].
  - rewrite fmap_nil, list_to_map_nil, lookup_empty.
    case_decide as Hin; [by apply elem_of_nil in Hin|done].
  - rewrite fmap_cons. cbn beta. rewrite list_to_map_cons.
    destruct (decide (x = v)) as [->|Hne].
    + clear IH. rewrite lookup_insert_eq.
      case_decide as Hin; [done|]. destruct Hin. left.
    + rewrite lookup_insert_ne, IH by done. clear IH.
      repeat case_decide; try done; set_solver.
Qed.

End init_facts.

(** X18. [__init__] gives every slot of the puzzle the whole dictionary as
    its domain, and the store has no other key. *)
Theorem init_domains_correct (cw : Crossword) (v : Var) :
  init_domains cw !! v = if decide (v ∈ variables cw) then Some (words cw) else None.
Proof. apply init_domains_lookup. Qed.

(** ** The letter grid *)

Section grid_facts.

Lemma bind_Ok_l {A B} (a : A) (f : A → result B) : Ok a ≫= f = f a.
Proof. done. Qed.

Lemma bind_Raise_l {A B} (e : exn) (f : A → result B) :
  (Raise e : result A) ≫= f = Raise e.
Proof. done. Qed.

Lemma cell_at_Some letters i j o :
  cell_at letters i j = Some o ↔ ∃ row, letters !! i = Some row ∧ row !! j = Some o.
Proof.
  unfold cell_at. destruct (letters !! i) as [row|]; simpl; naive_solver.
Qed.

Lemma grid_shape_cell_at height width letters i j :
  grid_shape height width letters →
  (is_Some (cell_at letters i j) ↔ i < height ∧ j < width).
Proof.
  intros [Hh Hw]. unfold cell_at. split.
  - destruct (letters !! i) as [row|] eqn:Hrow; simpl; [|by intros [? ?]].
    intros Hj%lookup_lt_is_Some. split; [rewrite <-Hh; by eapply lookup_lt_Some|].
    rewrite Forall_forall in Hw. rewrite <-(Hw row); [done|].
    by eapply list_elem_of_lookup_2.
  - intros [Hi Hj]. rewrite <-Hh in Hi. apply lookup_lt_is_Some in Hi as [row Hrow].
    rewrite Hrow. simpl. apply lookup_lt_is_Some.
    rewrite Forall_forall in Hw. rewrite (Hw row); [done|].
    by eapply list_elem_of_lookup_2.
Qed.

(** What one store into the grid does. *)
Lemma grid_set_Ok letters i j c letters' :
  grid_set letters i j c = Ok letters' →
  is_Some (cell_at letters i j)
  ∧ (∀ height width, grid_shape height width letters →
       grid_shape height width letters')
  ∧ ∀ i' j', cell_at letters' i' j'
             = if decide ((i', j') = (i, j)) then Some (Some c)
               else cell_at letters i' j'.
Proof.
  unfold grid_set. intros (row & Hrow%or_raise_Ok & H)%bind_Ok.
  destruct (decide (j < length row)) as [Hj|]; [|done]. injection H as <-.
  pose proof (lookup_lt_Some _ _ _ Hrow) as Hi. split_and!.
  - unfold cell_at. rewrite Hrow. simpl. by apply lookup_lt_is_Some.
  - intros height width [Hh Hw]. split; [by rewrite length_insert|].
    apply Forall_insert; [done|]. rewrite length_insert.
    rewrite Forall_forall in Hw. apply Hw. by eapply list_elem_of_lookup_2.
  - intros i' j'. unfold cell_at. destruct (decide (i' = i)) as [->|Hne].
    + rewrite list_lookup_insert_eq by done. simpl.
      destruct (decide (j' = j)) as [->|Hnej].
      * rewrite list_lookup_insert_eq by done. by rewrite decide_True.
      * rewrite list_lookup_insert_ne by done. rewrite Hrow. simpl.
        rewrite decide_False; [done|]. by intros [=].
    + rewrite list_lookup_insert_ne by done.
      rewrite decide_False; [done|]. by intros [=].
Qed.

Lemma grid_set_cases height width letters i j c :
  grid_shape height width letters →
  if decide (i < height ∧ j < width)
  then ∃ letters', grid_set letters i j c = Ok letters'
  else grid_set letters i j c = Raise IndexError.
Proof.
  intros Hshape. pose proof (grid_shape_cell_at _ _ _ i j Hshape) as Hiff.
  unfold grid_set, cell_at in *.
  destruct (letters !! i) as [row|] eqn:Hrow; simpl in *.
  - rewrite lookup_lt_is_Some in Hiff.
    destruct (decide (j < length row)) as [Hj|Hj].
    + rewrite decide_True by (by apply Hiff). eauto.
    + rewrite decide_False; [done|]. by intros ?%Hiff.
  - rewrite decide_False; [done|]. intros ?%Hiff. by destruct H.
Qed.

Lemma letter_grid_word_spec height width a variable word ks letters :
  (∀ k, k ∈ ks → k < String.length word) →
  grid_shape height width letters →
  (∀ i j c, cell_at letters i j = Some (Some c) →
     written a i j c
     ∨ ∃ k, String.get k word = Some c ∧ cell variable k = (i, j)) →
  match letter_grid_word variable word ks letters with
  | Ok letters' =>
      (∀ k, k ∈ ks → (cell variable k).1 < height ∧ (cell variable k).2 < width)
      ∧ grid_shape height width letters'
      ∧ (∀ i j c, cell_at letters' i j = Some (Some c) →
           written a i j c
           ∨ ∃ k, String.get k word = Some c ∧ cell variable k = (i, j))
      ∧ (∀ i j, is_Some (cell_at letters i j ≫= id) →
           is_Some (cell_at letters' i j ≫= id))
      ∧ (∀ k, k ∈ ks →
           is_Some (cell_at letters' (cell variable k).1 (cell variable k).2 ≫= id))
  | Raise IndexError =>
      ∃ k, k ∈ ks ∧ ¬ ((cell variable k).1 < height ∧ (cell variable k).2 < width)
  | _ => False
  end.
Proof.
  revert letters.
  induction ks as [|k ks IH]; intros letters Hks Hshape Hsound; cbn [letter_grid_word].
  - split_and!; [by intros ? ?%elem_of_nil|done..|by intros ? ?%elem_of_nil].
  - destruct (string_get_is_Some word k) as [c Hc]; [apply Hks; left|].
    unfold getitem. rewrite Hc. unfold or_raise. rewrite bind_Ok_l.
    pose proof (grid_set_cases height width letters (cell variable k).1
                  (cell variable k).2 c Hshape) as Hset.
    destruct (decide _) as [Hin|Hout];
      [|rewrite Hset, bind_Raise_l; exists k; split; [left|done]].
    destruct Hset as [letters1 Hset]. rewrite Hset, bind_Ok_l.
    apply grid_set_Ok in Hset as (_ & Hshape1 & Hcell).
    assert (∀ i j c0, cell_at letters1 i j = Some (Some c0) →
              written a i j c0
              ∨ ∃ k, String.get k word = Some c0 ∧ cell variable k = (i, j)) as Hsound1.
    { intros i j c0. rewrite Hcell. case_decide as Heq; [|by apply Hsound].
      intros [= <-]. right. exists k. split; [done|]. rewrite Heq.
      by destruct (cell variable k). }
    assert (∀ k', k' ∈ ks → k' < String.length word) as Hks1.
    { intros k' Hk'. apply Hks. by right. }
    specialize (IH letters1 Hks1 (Hshape1 _ _ Hshape) Hsound1).
    destruct (letter_grid_word variable word ks letters1) as [letters'|[| |]|];
      [|done| |done|done].
    + destruct IH as (Hfit & Hshape' & Hsound' & Hmono & Hcov).
      assert (∀ i j, is_Some (cell_at letters i j ≫= id) →
                     is_Some (cell_at letters1 i j ≫= id)) as Hmono1.
      { intros i j. rewrite Hcell. case_decide; [by eexists|done]. }
      split_and!; [|done|done|by auto|].
      * intros k' [->|Hk']%elem_of_cons; [done|by apply Hfit].
      * intros k' [->|Hk']%elem_of_cons; [|by apply Hcov].
        apply Hmono. rewrite Hcell.
        rewrite decide_True by (by destruct (cell variable k)). by eexists.
    + destruct IH as (k' & Hk' & Hout). exists k'. split; [by right|done].
Qed.

Lemma string_get_lt (w : string) (k : nat) c :
  String.get k w = Some c → k < String.length w.
Proof.
  revert k. induction w as [|c' w IH]; intros k; simpl; [done|].
  destruct k as [|k]; [lia|]. intros ?%IH. lia.
Qed.

Lemma written_app a1 a2 i j c :
  written (a1 ++ a2) i j c ↔ written a1 i j c ∨ written a2 i j c.
Proof.
  unfold written. split.
  - intros (v & w & k & [?|?]%elem_of_app & ?); [left|right]; by exists v, w, k.
  - intros [(v & w & k & ? & ?)|(v & w & k & ? & ?)]; exists v, w, k;
      (split; [|done]); apply elem_of_app; auto.
Qed.

Lemma written_singleton variable word i j c :
  written [(variable, word)] i j c
  ↔ ∃ k, String.get k word = Some c ∧ cell variable k = (i, j).
Proof.
  unfold written. split.
  - intros (v & w & k & [= -> ->]%list_elem_of_singleton & ?). by exists k.
  - intros (k & ?). exists variable, word, k. split; [left|done].
Qed.

Lemma grid_invariant_init height width :
  grid_invariant height width [] (replicate height (replicate width None)).
Proof.
  split_and!.
  - split; [by rewrite length_replicate|]. apply Forall_replicate.
    by rewrite length_replicate.
  - intros i j c (row & [-> _]%lookup_replicate & [? _]%lookup_replicate)%cell_at_Some.
    done.
  - by intros i j c (? & ? & ? & ?%elem_of_nil & _).
Qed.

Lemma letter_grid_items_spec height width a items letters :
  grid_invariant height width a letters →
  match letter_grid_items items letters with
  | Ok letters' =>
      fits height width items ∧ grid_invariant height width (a ++ items) letters'
  | Raise IndexError => ¬ fits height width items
  | _ => False
  end.
Proof.
  revert a letters.
  induction items as [|[variable word] items IH]; intros a letters Hinv;
    cbn [letter_grid_items].
  - rewrite app_nil_r. split; [|done]. by intros ??? ?%elem_of_nil.
  - destruct Hinv as (Hshape & Hsound & Hcov).
    assert (∀ k, k ∈ seq 0 (String.length word) ↔ k < String.length word) as Hseq.
    { intros k. rewrite elem_of_seq. lia. }
    pose proof (letter_grid_word_spec height width a variable word
                  (seq 0 (String.length word)) letters
                  (λ k, proj1 (Hseq k)) Hshape (λ i j c H, or_introl (Hsound i j c H)))
      as Hword.
    destruct (letter_grid_word variable word _ letters) as [letters1|[| |]|];
      [|done| |done|done].
    + rewrite bind_Ok_l. destruct Hword as (Hfit & Hshape1 & Hsound1 & Hmono & Hcov1).
      assert (grid_invariant height width (a ++ [(variable, word)]) letters1) as Hinv1.
      { split_and!; [done| |].
        - intros i j c Hc. apply written_app. rewrite written_singleton. auto.
        - intros i j c [Hw|(k & Hk & Hcell)%written_singleton]%written_app.
          + by eapply Hmono, Hcov.
          + specialize (Hcov1 k). rewrite Hcell in Hcov1. apply Hcov1.
            apply Hseq. by eapply string_get_lt. }
      specialize (IH (a ++ [(variable, word)]) letters1 Hinv1).
      rewrite <-app_assoc in IH. simpl in IH.
      destruct (letter_grid_items items letters1) as [letters'|[| |]|];
        [|done| |done|done].
      * destruct IH as [Hfits Hinv']. split; [|done].
        intros v w k [[= -> ->]|Hin]%elem_of_cons Hk; [by apply Hfit, Hseq|by eapply Hfits].
      * intros Hfits. apply IH. intros v w k Hin. apply Hfits. by right.
    + rewrite bind_Raise_l. destruct Hword as (k & Hk%Hseq & Hout).
      intros Hfits. apply Hout. apply (Hfits variable word k); [left|done].
Qed.

End grid_facts.

(** X19. Bounds of [letter_grid].  It returns iff every cell of every
    assigned word lies in the grid, and then the grid has [height] rows of
    [width] cells; otherwise it raises [IndexError] (and no other
    exception). *)
Theorem letter_grid_bounds (height width : nat) (a : Assignment) :
  match letter_grid height width a with
  | Ok letters => fits height width a ∧ grid_shape height width letters
  | Raise e => e = IndexError ∧ ¬ fits height width a
  | Diverge => False
  end.
Proof.
  pose proof (letter_grid_items_spec height width [] a _
                (grid_invariant_init height width)) as H.
  unfold letter_grid. destruct (letter_grid_items a _) as [letters|[| |]|]; try done.
  destruct H as [Hfits (Hshape & _)]. done.
Qed.

(** X20. The cells of the letter grid.  A cell of the grid that [letter_grid]
    returns holds a letter only if an entry of the assignment writes that
    letter there, and holds [None] exactly when no entry of the assignment
    covers it. *)
Theorem letter_grid_cells (height width : nat) (a : Assignment) (letters : Grid)
    (i j : nat) :
  letter_grid height width a = Ok letters →
  i < height → j < width →
  match cell_at letters i j with
  | Some (Some c) => written a i j c
  | Some None => ∀ c, ¬ written a i j c
  | None => False
  end.
Proof.
  intros H Hi Hj.
  pose proof (letter_grid_items_spec height width [] a _
                (grid_invariant_init height width)) as Hspec.
  unfold letter_grid in H. rewrite H in Hspec. simpl in Hspec.
  destruct Hspec as (_ & Hshape & Hsound & Hcov).
  destruct (proj2 (grid_shape_cell_at _ _ _ i j Hshape) (conj Hi Hj)) as [o Ho].
  rewrite Ho. destruct o as [c|]; [by apply Hsound|].
  intros c Hw. apply Hcov in Hw. rewrite Ho in Hw. by destruct Hw.
Qed.

Lemma letter_grid_cells_witness :
  match cell_at [[Some "C"; Some "A"; Some "T"]; [None; Some "R"; None];
                 [None; Some "T"; None]]%char 1 1 with
  | Some (Some c) => written SolvedCrossing.solution 1 1 c
  | Some None => ∀ c, ¬ written SolvedCrossing.solution 1 1 c
  | None => False
  end.
Proof.
  apply (letter_grid_cells 3 3 SolvedCrossing.solution).
  - vm_compute. reflexivity.
  - lia.
  - lia.
Defined.

(** X21. The letter grid shows the words.  If the entries of the assignment
    agree wherever two of them write the same cell, then in the grid that
    [letter_grid] returns the cell of the [k]-th letter of every assigned
    word holds that letter. *)
Theorem letter_grid_shows (height width : nat) (a : Assignment) (letters : Grid)
    (variable : Var) (word : string) (k : nat) (c : ascii) :
  letter_grid height width a = Ok letters →
  (∀ i j c1 c2, written a i j c1 → written a i j c2 → c1 = c2) →
  (variable, word) ∈ a → String.get k word = Some c →
  cell_at letters (cell variable k).1 (cell variable k).2 = Some (Some c).
Proof.
  intros H Hagree Hin Hk.
  pose proof (letter_grid_items_spec height width [] a _
                (grid_invariant_init height width)) as Hspec.
  unfold letter_grid in H. rewrite H in Hspec. simpl in Hspec.
  destruct Hspec as (_ & _ & Hsound & Hcov).
  assert (written a (cell variable k).1 (cell variable k).2 c) as Hw.
  { exists variable, word, k. split_and!; [done..|]. by destruct (cell variable k). }
  destruct (Hcov _ _ _ Hw) as [c' Hc'].
  destruct (cell_at letters _ _) as [[c0|]|] eqn:Hcell; simpl in Hc'; try done.
  injection Hc' as ->. apply Hsound in Hcell. by rewrite (Hagree _ _ _ _ Hw Hcell).
Qed.

Lemma letter_grid_shows_witness :
  cell_at [[Some "C"; Some "A"; Some "T"]; [None; Some "R"; None];
           [None; Some "T"; None]]%char
    (cell Crossing.down 2).1 (cell Crossing.down 2).2 = Some (Some "T"%char).
Proof.
  apply (letter_grid_shows 3 3 SolvedCrossing.solution _ Crossing.down "ART" 2).
  - vm_compute. reflexivity.
  - intros i j c1 c2 (v1 & w1 & k1 & Hin1 & Hg1 & Hc1) (v2 & w2 & k2 & Hin2 & Hg2 & Hc2).
    apply elem_of_cons in Hin1 as [[= -> ->]|Hin1];
      [|apply elem_of_cons in Hin1 as [[= -> ->]|Hin1]; [|by apply elem_of_nil in Hin1]];
      (apply elem_of_cons in Hin2 as [[= -> ->]|Hin2];
       [|apply elem_of_cons in Hin2 as [[= -> ->]|Hin2]; [|by apply elem_of_nil in Hin2]]);
      do 4 (try (destruct k1 as [|k1]; try discriminate Hg1));
      do 4 (try (destruct k2 as [|k2]; try discriminate Hg2));
      vm_compute in Hc1, Hc2, Hg1, Hg2; congruence.
  - right. left.
  - reflexivity.
Defined.

(** ** The solver decides solvability *)

Section decides.
Context (cw : Crossword) (Hwf : well_formed cw).

(** [solve] returns on every store that has a domain for every slot. *)
Lemma solve_returns d : covers cw d → ∃ res, solve cw d = Ok res.
Proof.
  intros Hcov.
  pose proof (solve_not_Diverge cw d) as Hdiv.
  assert (∀ e, solve cw d ≠ Raise e) as Hexn.
  { intros e. unfold solve, solve_run.
    pose proof (enforce_node_consistency_covers cw _ Hcov) as Hd.
    pose proof (enforce_node_consistency_sound d) as Hnc.
    pose proof (ac3_no_exception cw Hwf _ e Hd Hnc) as Hac3.
    destruct (ac3 _ _ None) as [[ok d2]|e'|] eqn:Heq; cbn [snd];
      [|simpl; intros [= ->]; by destruct Hac3|done].
    pose proof (backtrack_no_exception cw Hwf (backtrack_fuel cw []) d2 [] e) as Hb.
    destruct (backtrack cw (backtrack_fuel cw []) d2 []); [done| |done].
    simpl. apply Hb; [by eapply ac3_covers|by eapply ac3_node_consistent| |].
    - constructor.
    - by intros v ?%elem_of_nil. }
  destruct (solve cw d) as [res|e|]; [by exists res|by destruct (Hexn e)|done].
Qed.

Lemma solve_Some_valid d a : solve cw d = Ok (Some a) → valid_solution cw a.
Proof.
  intros (d' & (ok & _ & Hb)%solve_run_Ok)%solve_Ok.
  apply backtrack_visited in Hb as [Hvis Hlen].
  - apply visited_complete_valid; [apply Hwf|done..].
  - split_and!; [constructor|by intros v ?%elem_of_nil|reflexivity].
Qed.

End decides.

(** X22. The solver decides solvability.  On a well-formed puzzle and a
    store with a domain for every slot, [solve] returns an assignment iff
    the puzzle has a solution whose words are candidates of the store, and
    it returns [None] iff it has none. *)
Theorem solve_decides (cw : Crossword) (d : Domains) :
  well_formed cw → covers cw d →
  ((∃ a, solve cw d = Ok (Some a)) ↔ ∃ c, valid_solution cw c ∧ within d c)
  ∧ (solve cw d = Ok None ↔ ¬ ∃ c, valid_solution cw c ∧ within d c).
Proof.
  intros Hwf Hcov. destruct (solve_returns cw Hwf d Hcov) as [[a|] Hres].
  - assert (valid_solution cw a ∧ within d a) as Hsol.
    { split; [by eapply solve_Some_valid|by apply (solve_Some_within cw)]. }
    split.
    + split; [by exists a|by exists a].
    + rewrite Hres. split; [done|]. intros Hno. destruct Hno. by exists a.
  - assert (¬ ∃ c, valid_solution cw c ∧ within d c) as Hno.
    { intros (c & Hc & Hd). by eapply solve_None_complete. }
    split.
    + split; [intros [a Ha]; congruence|by intros ?%Hno].
    + done.
Qed.

Lemma solve_decides_witness :
  ((∃ a, solve (Crossing.puzzle SolvedCrossing.dictionary)
           (init_domains (Crossing.puzzle SolvedCrossing.dictionary)) = Ok (Some a))
   ↔ ∃ c, valid_solution (Crossing.puzzle SolvedCrossing.dictionary) c
          ∧ within (init_domains (Crossing.puzzle SolvedCrossing.dictionary)) c)
  ∧ (solve (Crossing.puzzle SolvedCrossing.dictionary)
       (init_domains (Crossing.puzzle SolvedCrossing.dictionary)) = Ok None
     ↔ ¬ ∃ c, valid_solution (Crossing.puzzle SolvedCrossing.dictionary) c
              ∧ within (init_domains (Crossing.puzzle SolvedCrossing.dictionary)) c).
Proof.
  apply (solve_decides (Crossing.puzzle SolvedCrossing.dictionary)
           (init_domains (Crossing.puzzle SolvedCrossing.dictionary))).
  - apply SolvedCrossingFacts.puzzle_well_formed.
  - apply init_domains_covers.
Defined.

(** ** The result of the solver and the iteration order (C9) *)

Section same_puzzle_facts.
Context (cw1 cw2 : Crossword) (Hsame : same_puzzle cw1 cw2).

Lemma same_puzzle_variables v : v ∈ variables cw1 ↔ v ∈ variables cw2.
Proof. destruct Hsame as (Hv & _). by rewrite Hv. Qed.

Lemma same_puzzle_neighbors x y : y ∈ neighbors cw1 x ↔ y ∈ neighbors cw2 x.
Proof.
  destruct Hsame as (_ & _ & Ho).
  by rewrite !elem_of_neighbors, same_puzzle_variables, Ho.
Qed.

Lemma same_puzzle_valid_solution c : valid_solution cw1 c → valid_solution cw2 c.
Proof.
  intros (Hnd & Hkeys & Hvals & Hlen & Hov). split_and!; [done| |done|done|].
  - intros v. by rewrite Hkeys, same_puzzle_variables.
  - intros x y wx wy Hx Hy Hnb%same_puzzle_neighbors.
    destruct Hsame as (_ & _ & <-). by apply Hov.
Qed.

Lemma same_puzzle_within_init c :
  within (init_domains cw1) c → within (init_domains cw2) c.
Proof.
  intros Hc v w Hin. destruct (Hc v w Hin) as (dv & Hdv & Hw).
  rewrite init_domains_lookup in Hdv. rewrite init_domains_lookup.
  destruct (decide (v ∈ variables cw1)) as [Hv|]; [|done]. injection Hdv as <-.
  rewrite decide_True by (by apply same_puzzle_variables).
  exists (words cw2). split; [done|]. destruct Hsame as (_ & Hwords & _).
  by rewrite <-Hwords.
Qed.

Lemma same_puzzle_well_formed : well_formed cw1 → well_formed cw2.
Proof.
  intros (Hnd & Hrange & Hsym). pose proof Hsame as (Hv & _ & Ho). split_and!.
  - by rewrite <-Hv.
  - intros x y i j. rewrite <-Ho. apply Hrange.
  - intros x y i j Hx%same_puzzle_variables Hy%same_puzzle_variables.
    rewrite <-Ho. by apply Hsym.
Qed.

End same_puzzle_facts.

Lemma same_puzzle_sym (cw1 cw2 : Crossword) :
  same_puzzle cw1 cw2 → same_puzzle cw2 cw1.
Proof. intros (Hv & Hw & Ho). by split_and!. Qed.

(** C9, as the code has it.  For one well-formed Puzzle Model and
    dictionary, listed in any two iteration orders, [solve] on a fresh
    creator returns in both cases, it returns [None] in both or an
    assignment in both, and every assignment returned is a solution of the
    puzzle with words of the dictionary.  Which solution comes back is
    not fixed by the heuristics: at every step the slot selected is the
    first unassigned slot, in the iteration order of the slot set, whose
    key (domain size, then minus the degree) is the smallest, and the
    values are tried by conflict count, words of equal count in the
    iteration order of the domain. *)
Theorem solve_up_to_iteration_order (cw1 cw2 : Crossword) :
  well_formed cw1 →
  same_puzzle cw1 cw2 →
  (∃ r1 r2, generate cw1 = Ok r1 ∧ generate cw2 = Ok r2
     ∧ (r1 = None ↔ r2 = None)
     ∧ ∀ a, r1 = Some a ∨ r2 = Some a →
         valid_solution cw1 a ∧ within (init_domains cw1) a)
  ∧ ∀ d a var values,
      select_unassigned_variable cw1 d a = Ok var →
      order_domain_values cw1 d var a = Ok values →
      (∃ l1 l2, unassigned_variables cw1 a = l1 ++ var :: l2
         ∧ (∀ v, v ∈ l1 → key_less (key_of cw1 d var) (key_of cw1 d v))
         ∧ (∀ v, v ∈ l2 → ¬ key_less (key_of cw1 d v) (key_of cw1 d var)))
      ∧ ∃ keys out,
          Forall2 (λ w k, conflicts_count cw1 d a var w = Ok k) (d !!! var) keys
          ∧ values = out.*2
          ∧ out ≡ₚ zip keys (d !!! var)
          ∧ StronglySorted key_le out
          ∧ ∀ k, filter (λ p, p.1 = k) out
                 = filter (λ p, p.1 = k) (zip keys (d !!! var)).
Proof.
  intros Hwf1 Hsame. split; [|intros d a var values; apply search_step_order].
  pose proof (same_puzzle_well_formed _ _ Hsame Hwf1) as Hwf2.
  pose proof (same_puzzle_sym _ _ Hsame) as Hsame'.
  unfold generate.
  destruct (solve_returns cw1 Hwf1 _ (init_domains_covers cw1)) as [r1 H1].
  destruct (solve_returns cw2 Hwf2 _ (init_domains_covers cw2)) as [r2 H2].
  assert (∀ a, r1 = Some a → valid_solution cw1 a ∧ within (init_domains cw1) a) as Hs1.
  { intros a ->. split; [by eapply solve_Some_valid|by apply (solve_Some_within cw1)]. }
  assert (∀ a, r2 = Some a → valid_solution cw1 a ∧ within (init_domains cw1) a) as Hs2.
  { intros a ->. split.
    - apply (same_puzzle_valid_solution cw2 cw1 Hsame'). by eapply solve_Some_valid.
    - apply (same_puzzle_within_init cw2 cw1 Hsame'). by apply (solve_Some_within cw2). }
  exists r1, r2. split_and!; [done|done| |by intros a [?|?]; auto].
  split; intros ->.
  - destruct r2 as [a2|]; [|done]. destruct (Hs2 a2 eq_refl) as [Hv Hw].
    by destruct (solve_None_complete cw1 _ a2 H1 Hv Hw).
  - destruct r1 as [a1|]; [|done]. destruct (Hs1 a1 eq_refl) as [Hv Hw].
    destruct (solve_None_complete cw2 _ a1 H2).
    + by apply (same_puzzle_valid_solution cw1 cw2 Hsame).
    + by apply (same_puzzle_within_init cw1 cw2 Hsame).
Qed.

Module OneSlotFacts.
Import OneSlot.

Lemma one_slot_well_formed dictionary : well_formed (puzzle dictionary).
Proof.
  split_and!.
  - apply NoDup_singleton.
  - intros x y i j H. simpl in H. by rewrite lookup_empty in H.
  - intros x y i j _ _ H. simpl in H. by rewrite lookup_empty in H.
Qed.

Lemma one_slot_same : same_puzzle (puzzle ["CAT"; "DOG"]) (puzzle ["DOG"; "CAT"]).
Proof. split_and!; [done|apply Permutation_swap|done]. Qed.
End OneSlotFacts.

Lemma solve_up_to_iteration_order_witness :
  (∃ r1 r2, generate (OneSlot.puzzle ["CAT"; "DOG"]) = Ok r1
     ∧ generate (OneSlot.puzzle ["DOG"; "CAT"]) = Ok r2
     ∧ (r1 = None ↔ r2 = None)
     ∧ ∀ a, r1 = Some a ∨ r2 = Some a →
         valid_solution (OneSlot.puzzle ["CAT"; "DOG"]) a
         ∧ within (init_domains (OneSlot.puzzle ["CAT"; "DOG"])) a)
  ∧ ∀ d a var values,
      select_unassigned_variable (OneSlot.puzzle ["CAT"; "DOG"]) d a = Ok var →
      order_domain_values (OneSlot.puzzle ["CAT"; "DOG"]) d var a = Ok values →
      (∃ l1 l2, unassigned_variables (OneSlot.puzzle ["CAT"; "DOG"]) a = l1 ++ var :: l2
         ∧ (∀ v, v ∈ l1 →
              key_less (key_of (OneSlot.puzzle ["CAT"; "DOG"]) d var)
                (key_of (OneSlot.puzzle ["CAT"; "DOG"]) d v))
         ∧ (∀ v, v ∈ l2 →
              ¬ key_less (key_of (OneSlot.puzzle ["CAT"; "DOG"]) d v)
                  (key_of (OneSlot.puzzle ["CAT"; "DOG"]) d var)))
      ∧ ∃ keys out,
          Forall2 (λ w k, conflicts_count (OneSlot.puzzle ["CAT"; "DOG"]) d a var w = Ok k)
            (d !!! var) keys
          ∧ values = out.*2
          ∧ out ≡ₚ zip keys (d !!! var)
          ∧ StronglySorted key_le out
          ∧ ∀ k, filter (λ p, p.1 = k) out
                 = filter (λ p, p.1 = k) (zip keys (d !!! var)).
Proof.
  apply (solve_up_to_iteration_order (OneSlot.puzzle ["CAT"; "DOG"])
           (OneSlot.puzzle ["DOG"; "CAT"])).
  - apply OneSlotFacts.one_slot_well_formed.
  - apply OneSlotFacts.one_slot_same.
Defined.
